(** * MAXCUT-QAOA demo notebook: a shallow embedding and its properties

    The notebook [QAOA_Demo_Code.ipynb] builds a QAOA circuit for MAXCUT,
    runs it on a simulator, and scores the measured bitstrings with a
    classical objective.  This file embeds the notebook's own functions

      append_zz_term, get_cost_operator_circuit, append_x_term,
      get_mixer_operator_circuit, get_qaoa_circuit, invert_counts,
      maxcut_obj, compute_maxcut_energy, and the best-solution cell

    and proves the properties the specification states about them.

    Modelling conventions.
    - A Python exception is a value of [exn]; a call that may raise returns
      [result A].  Sequencing is the usual error monad.
    - A Python [str] is a [list ascii]; [x[i]] is [getitem x i] and raises
      [IndexError] past the end; [k[::-1]] is [rev k].
    - A Python [dict] is an association list in insertion order with
      pairwise distinct keys ([dict_ok]); [dict_set] is item assignment.
    - A networkx graph is seen through the two enumerations the notebook
      uses, [G.nodes()] and [G.edges()].
    - A Qiskit [QuantumCircuit] is its register sizes and its instruction
      list; the mutating methods become functions on that record.
    - Python integers are [Z].  The two float operations of the notebook,
      [2*x] on an angle and [a/b] on two integers, are the methods of the
      class [PyFloat]; [Q] is the instance used to run the definitions. *)

From Stdlib Require Import Ascii String.
From Stdlib Require Import List ZArith QArith Bool Arith Lia Permutation.
Import ListNotations.
Close Scope Q_scope.

(* ================================================================= *)
(** ** Exceptions and the error monad *)

Module Py.

Inductive exn : Type :=
| AssertionError      (* a failed [assert] *)
| IndexError          (* [x[i]] with [i] out of range *)
| ZeroDivisionError   (* [a / 0] *)
| ValueError          (* [min] of an empty sequence *)
| CircuitError.       (* Qiskit: bad qubit index or duplicate qubits *)

Inductive result (A : Type) : Type :=
| Ok (a : A)
| Raise (e : exn).

Arguments Ok {A} a.
Arguments Raise {A} e.

Definition bind {A B : Type} (m : result A) (k : A -> result B) : result B :=
  match m with
  | Ok a => k a
  | Raise e => Raise e
  end.

(** [for x in l: s = body(s, x)], where the body may raise. *)
Fixpoint for_each {A S : Type} (l : list A) (s : S) (body : S -> A -> result S)
  : result S :=
  match l with
  | [] => Ok s
  | x :: l' => bind (body s x) (fun s' => for_each l' s' body)
  end.

(** [x[i]] on a sequence, for a non-negative index. *)
Definition getitem {A : Type} (x : list A) (i : nat) : result A :=
  match nth_error x i with
  | Some a => Ok a
  | None => Raise IndexError
  end.

(** [assert(b)] *)
Definition assert (b : bool) : result unit :=
  if b then Ok tt else Raise AssertionError.

(** [range(n)] *)
Definition range (n : nat) : list nat := seq 0 n.

End Py.
Export Py.

Declare Scope py_scope.
Delimit Scope py_scope with py.
Notation "x <- m ;; k" := (bind m (fun x => k))
  (at level 61, m at next level, right associativity) : py_scope.
Notation "' p <- m ;; k" := (bind m (fun p => k))
  (at level 61, p pattern, m at next level, right associativity) : py_scope.
Notation "m ;;; k" := (bind m (fun _ => k))
  (at level 61, right associativity) : py_scope.
Open Scope py_scope.

(* ================================================================= *)
(** ** Strings *)

Definition str : Type := list ascii.

(** A literal, as in the notebook's ['00011']. *)
Definition s (lit : string) : str := list_ascii_of_string lit.

Fixpoint str_eqb (a b : str) : bool :=
  match a, b with
  | [], [] => true
  | c :: a', d :: b' => Ascii.eqb c d && str_eqb a' b'
  | _, _ => false
  end.

(** [k[::-1]] *)
Definition reversed (k : str) : str := rev k.

Definition is_bit (c : ascii) : bool :=
  Ascii.eqb c "0" || Ascii.eqb c "1".

(** A bitstring: every character is ['0'] or ['1']. *)
Definition is_bitstring (x : str) : bool := forallb is_bit x.

(* ================================================================= *)
(** ** Graphs *)

(** The graph as the notebook reads it: [G.nodes()] and [G.edges()] in
    their enumeration order. *)
Record Graph : Type := mkGraph {
  nodes : list nat;
  edges : list (nat * nat)
}.

Definition number_of_nodes (G : Graph) : nat := length (nodes G).

Fixpoint distinct (l : list nat) : bool :=
  match l with
  | [] => true
  | n :: l' => negb (existsb (Nat.eqb n) l') && distinct l'
  end.

(** The graph invariant of the data model: node identifiers are distinct
    and contiguous from 0, every edge joins two existing nodes, and no
    edge is a self-loop. *)
Definition wf_graph (G : Graph) : bool :=
  distinct (nodes G)
  && forallb (fun n => n <? number_of_nodes G) (nodes G)
  && forallb (fun e => existsb (Nat.eqb (fst e)) (nodes G)
                       && existsb (Nat.eqb (snd e)) (nodes G)
                       && negb (fst e =? snd e)) (edges G).

(** The notebook's graph: [add_edges_from([[0,3],[0,4],[1,3],[1,4],[2,3],[2,4]])].
    networkx enumerates nodes in insertion order and reports each edge
    from the endpoint it meets first. *)
Definition G_demo : Graph :=
  mkGraph [0; 3; 4; 1; 2] [(0,3); (0,4); (3,1); (3,2); (4,1); (4,2)].

(* ================================================================= *)
(** ** The classical objective *)

(** [[
def maxcut_obj(x,G):
    cut = 0
    for i, j in G.edges():
        if x[i] != x[j]:
            # the edge is cut
            cut -= 1
    return cut
]] *)
Definition maxcut_obj (x : str) (G : Graph) : result Z :=
  for_each (edges G) 0%Z (fun cut e =>
    let '(i, j) := e in
    xi <- getitem x i ;;
    xj <- getitem x j ;;
    if negb (Ascii.eqb xi xj) then Ok (cut - 1)%Z else Ok cut).

(* ================================================================= *)
(** ** Dictionaries *)

(** A [dict] in insertion order. *)
Definition dict (V : Type) : Type := list (str * V).

Definition keys {V : Type} (d : dict V) : list str := map fst d.
Definition values {V : Type} (d : dict V) : list V := map snd d.

Fixpoint str_in (k : str) (l : list str) : bool :=
  match l with
  | [] => false
  | k' :: l' => str_eqb k k' || str_in k l'
  end.

Fixpoint distinct_keys (l : list str) : bool :=
  match l with
  | [] => true
  | k :: l' => negb (str_in k l') && distinct_keys l'
  end.

(** What every Python dict satisfies: no key occurs twice. *)
Definition dict_ok {V : Type} (d : dict V) : bool := distinct_keys (keys d).

(** [d[k] = v]: an existing key keeps its place and takes the new value,
    a new key goes to the end. *)
Fixpoint dict_set {V : Type} (k : str) (v : V) (d : dict V) : dict V :=
  match d with
  | [] => [(k, v)]
  | (k', v') :: d' =>
      if str_eqb k k' then (k', v) :: d' else (k', v') :: dict_set k v d'
  end.

(* ================================================================= *)
(** ** Bit-order normalisation *)

(** [[
def invert_counts(counts):
    return {k[::-1]:v for k, v in counts.items()}
]] *)
Definition invert_counts (counts : dict Z) : dict Z :=
  fold_left (fun acc kv => dict_set (reversed (fst kv)) (snd kv) acc) counts [].

(* ================================================================= *)
(** ** Floats *)

(** The two float operations the notebook performs. [twice x] is [2*x];
    [int_truediv a b] is Python's [a / b] on integers with [b] non-zero. *)
Class PyFloat (F : Type) : Type := {
  twice : F -> F;
  int_truediv : Z -> Z -> F
}.

(** Rationals, for running the definitions on examples.  The quotient is
    kept exact here, where Python rounds it to the nearest binary64; the
    theorems are stated for every instance, and this one only runs them
    on concrete inputs. *)
#[export] Instance Q_PyFloat : PyFloat Q := {
  twice := fun x => Qmult (2 # 1) x;
  int_truediv := fun a b => Qdiv (inject_Z a) (inject_Z b)
}.

(** [a / b] on two integers: [ZeroDivisionError] on a zero divisor,
    otherwise the quotient.  Python also raises [OverflowError] when the
    quotient is too large for a float; with the non-negative counts of an
    outcome distribution the quotient of the two sums stays between minus
    the number of edges and 0, and that case does not arise. *)
Definition truediv {F : Type} `{PyFloat F} (a b : Z) : result F :=
  if (b =? 0)%Z then Raise ZeroDivisionError else Ok (int_truediv a b).

(* ================================================================= *)
(** ** Energy of a sample *)

(** [[
def compute_maxcut_energy(counts, G):
    energy = 0
    total_counts = 0
    for meas, meas_count in counts.items():
        obj_for_meas = maxcut_obj(meas, G)
        energy += obj_for_meas * meas_count
        total_counts += meas_count
    return energy / total_counts
]] *)
Definition energy_step (G : Graph) (st : Z * Z) (kv : str * Z) : result (Z * Z) :=
  let '(energy, total_counts) := st in
  let '(meas, meas_count) := kv in
  obj_for_meas <- maxcut_obj meas G ;;
  Ok ((energy + obj_for_meas * meas_count)%Z, (total_counts + meas_count)%Z).

Definition compute_maxcut_energy {F : Type} `{PyFloat F}
    (counts : dict Z) (G : Graph) : result F :=
  st <- for_each counts (0%Z, 0%Z) (energy_step G) ;;
  truediv (fst st) (snd st).

(* ================================================================= *)
(** ** Best solution *)

(** [[f(x) for x in l]] where [f] may raise. *)
Fixpoint list_comp {A B : Type} (f : A -> result B) (l : list A) : result (list B) :=
  match l with
  | [] => Ok []
  | x :: l' => y <- f x ;; ys <- list_comp f l' ;; Ok (y :: ys)
  end.

(** [min(l, key=key)]: the first item whose key is smallest;
    [ValueError] on an empty sequence. *)
Definition py_min {A : Type} (key : A -> Z) (l : list A) : result A :=
  match l with
  | [] => Raise ValueError
  | a :: l' =>
      Ok (fold_left (fun best item => if (key item <? key best)%Z then item else best) l' a)
  end.

(** [[
best_cut, best_solution = min([(maxcut_obj(x,G),x) for x in counts.keys()], key=itemgetter(0))
print(f"Best string: {best_solution} with cut: {-best_cut}")
]] *)
Definition best_selection (counts : dict Z) (G : Graph) : result (Z * str) :=
  scored <- list_comp (fun x => c <- maxcut_obj x G ;; Ok (c, x)) (keys counts) ;;
  py_min fst scored.

(** The pair the cell prints: the best string and [-best_cut]. *)
Definition best_report (counts : dict Z) (G : Graph) : result (str * Z) :=
  bs <- best_selection counts G ;;
  let '(best_cut, best_solution) := bs in
  Ok (best_solution, (- best_cut)%Z).

(* ================================================================= *)
(** ** Circuits *)

(** The part of Qiskit's [QuantumCircuit] the notebook uses.  A method that
    mutates the circuit returns the circuit after the call; a qubit index
    past the register, or the same qubit given twice to a two-qubit gate,
    raises [CircuitError]; so does a gate applied to an empty list of
    qubits ("One or more of the arguments are empty"). *)
Module Qiskit.
Section Circuit.
Context {F : Type}.

Inductive Instruction : Type :=
| Gate_h (q : nat)
| Gate_cx (control target : nat)
| Gate_rz (theta : F) (q : nat)
| Gate_rx (theta : F) (q : nat)
| Barrier (qs : list nat)
| Measure (q c : nat).

Record QuantumCircuit : Type := mkCircuit {
  num_qubits : nat;
  num_clbits : nat;
  data : list Instruction
}.

(** [QuantumCircuit(n, m)] *)
Definition new_circuit (n m : nat) : QuantumCircuit := mkCircuit n m [].

Definition append (qc : QuantumCircuit) (ins : list Instruction) : QuantumCircuit :=
  mkCircuit (num_qubits qc) (num_clbits qc) (data qc ++ ins).

Definition check_qubits (qc : QuantumCircuit) (qs : list nat) : result unit :=
  if forallb (fun q => q <? num_qubits qc) qs then Ok tt else Raise CircuitError.

Definition check_clbits (qc : QuantumCircuit) (cs : list nat) : result unit :=
  if forallb (fun c => c <? num_clbits qc) cs then Ok tt else Raise CircuitError.

(** [qc.h(qs)]: one gate per listed qubit; an empty list is rejected. *)
Definition h (qs : list nat) (qc : QuantumCircuit) : result QuantumCircuit :=
  check_qubits qc qs ;;;
  match qs with
  | [] => Raise CircuitError
  | _ :: _ => Ok (append qc (map Gate_h qs))
  end.

(** [qc.cx(q1, q2)] *)
Definition cx (q1 q2 : nat) (qc : QuantumCircuit) : result QuantumCircuit :=
  check_qubits qc [q1; q2] ;;;
  if q1 =? q2 then Raise CircuitError else Ok (append qc [Gate_cx q1 q2]).

(** [qc.rz(theta, q)] *)
Definition rz (theta : F) (q : nat) (qc : QuantumCircuit) : result QuantumCircuit :=
  check_qubits qc [q] ;;;
  Ok (append qc [Gate_rz theta q]).

(** [qc.rx(theta, q)] *)
Definition rx (theta : F) (q : nat) (qc : QuantumCircuit) : result QuantumCircuit :=
  check_qubits qc [q] ;;;
  Ok (append qc [Gate_rx theta q]).

(** [qc.barrier(qs)] *)
Definition barrier (qs : list nat) (qc : QuantumCircuit) : result QuantumCircuit :=
  check_qubits qc qs ;;;
  Ok (append qc [Barrier qs]).

(** [qc.barrier()]: a barrier across every qubit. *)
Definition barrier_all (qc : QuantumCircuit) : result QuantumCircuit :=
  barrier (range (num_qubits qc)) qc.

(** [qc.measure(qs, cs)]: qubit [qs[k]] into classical bit [cs[k]]. *)
Definition measure (qs cs : list nat) (qc : QuantumCircuit) : result QuantumCircuit :=
  check_qubits qc qs ;;;
  check_clbits qc cs ;;;
  if length qs =? length cs
  then Ok (append qc (map (fun p => Measure (fst p) (snd p)) (combine qs cs)))
  else Raise CircuitError.

(** [qc.compose(other, inplace=True)]: [other]'s instructions after
    [qc]'s, provided [other] is not wider than [qc]. *)
Definition compose (other qc : QuantumCircuit) : result QuantumCircuit :=
  if (num_qubits other <=? num_qubits qc) && (num_clbits other <=? num_clbits qc)
  then Ok (append qc (data other))
  else Raise CircuitError.

End Circuit.
Arguments Instruction F : clear implicits.
Arguments QuantumCircuit F : clear implicits.
End Qiskit.
Export Qiskit.

(* ================================================================= *)
(** ** The QAOA circuit *)

Section QAOA.
Context {F : Type} `{PyFloat F}.

(** [[
def append_zz_term(qc:QuantumCircuit, q1, q2, gamma):
    qc.cx(q1,q2)
    qc.rz(2*gamma, q2)
    qc.cx(q1,q2)
]] *)
Definition append_zz_term (qc : QuantumCircuit F) (q1 q2 : nat) (gamma : F)
  : result (QuantumCircuit F) :=
  qc <- cx q1 q2 qc ;;
  qc <- rz (twice gamma) q2 qc ;;
  cx q1 q2 qc.

(** [[
def get_cost_operator_circuit(G, gamma):
    N = G.number_of_nodes()
    qc = QuantumCircuit(N,N)
    for i, j in G.edges():
        append_zz_term(qc, i, j, gamma)
        qc.barrier()
    return qc
]] *)
Definition get_cost_operator_circuit (G : Graph) (gamma : F)
  : result (QuantumCircuit F) :=
  let N := number_of_nodes G in
  for_each (edges G) (new_circuit N N) (fun qc e =>
    let '(i, j) := e in
    qc <- append_zz_term qc i j gamma ;;
    barrier_all qc).

(** [[
def append_x_term(qc, q1, beta):
    qc.rx(2*beta, q1)
]] *)
Definition append_x_term (qc : QuantumCircuit F) (q1 : nat) (beta : F)
  : result (QuantumCircuit F) :=
  rx (twice beta) q1 qc.

(** [[
def get_mixer_operator_circuit(G, beta):
    N = G.number_of_nodes()
    qc = QuantumCircuit(N,N)
    for n in G.nodes():
        append_x_term(qc, n, beta)
    return qc
]] *)
Definition get_mixer_operator_circuit (G : Graph) (beta : F)
  : result (QuantumCircuit F) :=
  let N := number_of_nodes G in
  for_each (nodes G) (new_circuit N N) (fun qc n => append_x_term qc n beta).

(** [[
def get_qaoa_circuit(G, beta, gamma):
    assert(len(beta) == len(gamma))
    p = len(beta) # infering number of QAOA steps from the parameters passed
    N = G.number_of_nodes()
    qc = QuantumCircuit(N,N)
    # first, apply a layer of Hadamards
    qc.h(range(N))
    # second, apply p alternating operators
    for i in range(p):
        qc.compose(get_cost_operator_circuit(G,gamma[i]), inplace=True)
        qc.compose(get_mixer_operator_circuit(G,beta[i]), inplace=True)
    # finally, do not forget to measure the result!
    qc.barrier(range(N))
    qc.measure(range(N), range(N))
    return qc
]] *)
Definition qaoa_step (G : Graph) (beta gamma : list F)
    (qc : QuantumCircuit F) (i : nat) : result (QuantumCircuit F) :=
  g <- getitem gamma i ;;
  cost <- get_cost_operator_circuit G g ;;
  qc <- compose cost qc ;;
  b <- getitem beta i ;;
  mixer <- get_mixer_operator_circuit G b ;;
  compose mixer qc.

Definition get_qaoa_circuit (G : Graph) (beta gamma : list F)
  : result (QuantumCircuit F) :=
  assert (length beta =? length gamma) ;;;
  let p := length beta in
  let N := number_of_nodes G in
  let qc := new_circuit N N in
  qc <- h (range N) qc ;;
  qc <- for_each (range p) qc (qaoa_step G beta gamma) ;;
  qc <- barrier (range N) qc ;;
  measure (range N) (range N) qc.

End QAOA.

(* ================================================================= *)
(** ** The specification's vocabulary

    The definitions below follow the words of the specification, not the
    code; the theorems compare the two. *)

(** Bits [i] and [j] of [x] exist and differ. *)
Definition differ (x : str) (i j : nat) : bool :=
  match nth_error x i, nth_error x j with
  | Some a, Some b => negb (Ascii.eqb a b)
  | _, _ => false
  end.

(** The edges whose endpoints fall on different sides. *)
Definition cut_edges (x : str) (G : Graph) : list (nat * nat) :=
  filter (fun e => differ x (fst e) (snd e)) (edges G).

Fixpoint sumZ (l : list Z) : Z :=
  match l with
  | [] => 0%Z
  | a :: l' => (a + sumZ l')%Z
  end.

(** "Sum over edges (i,j) of -1 when bit i differs from bit j, else 0." *)
Definition cut_value (x : str) (G : Graph) : Z :=
  sumZ (map (fun e => if differ x (fst e) (snd e) then (-1)%Z else 0%Z) (edges G)).

(** Every endpoint of every edge indexes a character of [x]. *)
Definition covers (x : str) (G : Graph) : bool :=
  forallb (fun e => (fst e <? length x) && (snd e <? length x)) (edges G).

(** Flipping one bit, and every bit of a string. *)
Definition flip_bit (c : ascii) : ascii :=
  if Ascii.eqb c "0" then "1"%char else "0"%char.

Definition complement (x : str) : str := map flip_bit x.

(** "Σ count(b)·cut_value(b,Graph)" and "Σ count(b)". *)
Definition weighted_cut (counts : dict Z) (G : Graph) : Z :=
  sumZ (map (fun kv => (snd kv * cut_value (fst kv) G)%Z) counts).

Definition total_count (counts : dict Z) : Z := sumZ (values counts).

(** Every key of the distribution has one character per node. *)
Definition keys_have_length (n : nat) (counts : dict Z) : bool :=
  forallb (fun k => length k =? n) (keys counts).

(** Every key of the table indexes far enough for every edge. *)
Definition all_cover (counts : dict Z) (G : Graph) : bool :=
  forallb (fun kv => covers (fst kv) G) counts.

(** Reversing every key and leaving every count alone. *)
Definition reverse_keys (counts : dict Z) : dict Z :=
  map (fun kv => (reversed (fst kv), snd kv)) counts.

Section Layout.
Context {F : Type} `{PyFloat F}.

(** "entangle(i,j); rotate-phase(j, 2γ); entangle(i,j)" *)
Definition zz_term (i j : nat) (gamma : F) : list (Instruction F) :=
  [Gate_cx i j; Gate_rz (twice gamma) j; Gate_cx i j].

Definition hadamard_layer (N : nat) : list (Instruction F) :=
  map Gate_h (range N).

(** One cost layer as the code emits it: a term per edge, each followed
    by a separator across all lines. *)
Definition cost_layer (G : Graph) (gamma : F) : list (Instruction F) :=
  flat_map (fun e => zz_term (fst e) (snd e) gamma
                     ++ [Barrier (range (number_of_nodes G))]) (edges G).

Definition mixer_layer (G : Graph) (beta : F) : list (Instruction F) :=
  map (fun n => Gate_rx (twice beta) n) (nodes G).

Definition measurement (N : nat) : list (Instruction F) :=
  map (fun q => Measure q q) (range N).

(** The [p] alternating layers: cost with [gamma[k]], then mixer with
    [beta[k]], for [k = 0 .. p-1]. *)
Definition alternating_layers (G : Graph) (beta gamma : list F)
  : list (list (Instruction F) * list (Instruction F)) :=
  map (fun bg => (cost_layer G (snd bg), mixer_layer G (fst bg))) (combine beta gamma).

(** The instructions of a sequence of (cost, mixer) layers, in order. *)
Definition flatten_layers
    (ls : list (list (Instruction F) * list (Instruction F)))
  : list (Instruction F) :=
  flat_map (fun l => fst l ++ snd l) ls.

(** The whole program as the code emits it: Hadamards on every line, the
    alternating layers, a separator across all lines, the measurement of
    every line. *)
Definition qaoa_program (G : Graph) (beta gamma : list F) : list (Instruction F) :=
  let N := number_of_nodes G in
  hadamard_layer N
  ++ flatten_layers (alternating_layers G beta gamma)
  ++ [Barrier (range N)]
  ++ measurement N.

Definition is_barrier (ins : Instruction F) : bool :=
  match ins with
  | Barrier _ => true
  | _ => false
  end.

(** The instructions of a program with the separators left out. *)
Definition without_barriers (l : list (Instruction F)) : list (Instruction F) :=
  filter (fun ins => negb (is_barrier ins)) l.

(** One cost layer in the specification's instruction set: the coupling
    terms alone. *)
Definition cost_terms (G : Graph) (gamma : F) : list (Instruction F) :=
  flat_map (fun e => zz_term (fst e) (snd e) gamma) (edges G).

(** The whole program in the specification's instruction set: Hadamards,
    then for each layer the coupling terms with [gamma[k]] and the
    rotations with [beta[k]], then the measurement. *)
Definition qaoa_program_spec (G : Graph) (beta gamma : list F) : list (Instruction F) :=
  let N := number_of_nodes G in
  hadamard_layer N
  ++ flat_map (fun bg => cost_terms G (snd bg) ++ mixer_layer G (fst bg))
              (combine beta gamma)
  ++ measurement N.

End Layout.

(* ================================================================= *)
(** ** The objective handed to the optimiser *)

Section BlackBox.
Context {F : Type} `{PyFloat F}.

(** [[
def get_black_box_objective(G,p):
    backend = AerSimulator()
    def f(theta):
        # let's assume first half is betas, second half is gammas
        beta = theta[:p]
        gamma = theta[p:]
        qc = get_qaoa_circuit(G,beta, gamma)
        counts = backend.run(qc).result().get_counts()
        # return the energy
        return compute_maxcut_energy(invert_counts(counts), G)
    return f
]]
    [backend] stands for one [backend.run(qc).result().get_counts()].  The
    simulator samples, so nothing is assumed about the table it answers. *)
Definition get_black_box_objective
    (backend : QuantumCircuit F -> result (dict Z)) (G : Graph) (p : nat)
  : list F -> result F :=
  fun theta =>
    let beta := firstn p theta in
    let gamma := skipn p theta in
    qc <- get_qaoa_circuit G beta gamma ;;
    counts <- backend qc ;;
    compute_maxcut_energy (invert_counts counts) G.

(** [[
optimal_theta = res_sample['x']
qc = get_qaoa_circuit(G, optimal_theta[:p], optimal_theta[p:])
counts = invert_counts(backend.run(qc).result().get_counts())
]] *)
Definition final_counts
    (backend : QuantumCircuit F -> result (dict Z)) (G : Graph) (p : nat)
    (optimal_theta : list F) : result (dict Z) :=
  qc <- get_qaoa_circuit G (firstn p optimal_theta) (skipn p optimal_theta) ;;
  counts <- backend qc ;;
  Ok (invert_counts counts).

(** The last cells in sequence: the final table, then the best-solution
    cell on it. *)
Definition qaoa_solution
    (backend : QuantumCircuit F -> result (dict Z)) (G : Graph) (p : nat)
    (optimal_theta : list F) : result (str * Z) :=
  counts <- final_counts backend G p optimal_theta ;;
  best_report counts G.

End BlackBox.

(* ================================================================= *)
(** ** The histogram of cut values *)

(** [energies[c] += v] on a [defaultdict(int)]: a missing key starts
    from [int()], which is 0, and goes to the end. *)
Fixpoint defaultdict_add (c v : Z) (energies : list (Z * Z)) : list (Z * Z) :=
  match energies with
  | [] => [(c, (0 + v)%Z)]
  | (c', w) :: rest =>
      if (c =? c')%Z then (c', (w + v)%Z) :: rest
      else (c', w) :: defaultdict_add c v rest
  end.

(** [[
energies = defaultdict(int)
for k, v in counts.items():
    energies[maxcut_obj(k,G)] += v
]] *)
Definition energy_histogram (counts : dict Z) (G : Graph) : result (list (Z * Z)) :=
  for_each counts [] (fun energies kv =>
    let '(k, v) := kv in
    c <- maxcut_obj k G ;;
    Ok (defaultdict_add c v energies)).

(** [[
x,y = zip( *energies.items() )
]]
    Unpacking the transposed items into two names needs at least one
    item. *)
Definition unzip_items (items : list (Z * Z)) : result (list Z * list Z) :=
  match items with
  | [] => Raise ValueError
  | _ :: _ => Ok (map fst items, map snd items)
  end.

(** The two sequences handed to [plt.bar]. *)
Definition energy_bars (counts : dict Z) (G : Graph) : result (list Z * list Z) :=
  energies <- energy_histogram counts G ;;
  unzip_items energies.

(* ================================================================= *)
(** ** Colouring the nodes *)

(** [[
colors = ['r' if best_solution[node] == '0' else 'b' for node in G]
]] *)
Definition node_colors (best_solution : str) (G : Graph) : result (list ascii) :=
  list_comp (fun node =>
               c <- getitem best_solution node ;;
               Ok (if Ascii.eqb c "0" then "r"%char else "b"%char))
            (nodes G).

(* ================================================================= *)
(** ** Parity of a sampled integer (QNN notebook) *)

(** The binary digits of a positive integer, most significant first. *)
Fixpoint pos_bits (p : positive) : str :=
  match p with
  | xH => ["1"%char]
  | xO q => pos_bits q ++ ["0"%char]
  | xI q => pos_bits q ++ ["1"%char]
  end.

(** ["{:b}".format(x)]: binary digits without prefix, a minus sign in
    front of a negative number's magnitude. *)
Definition format_b (x : Z) : str :=
  match x with
  | Z0 => ["0"%char]
  | Zpos p => pos_bits p
  | Zneg p => "-"%char :: pos_bits p
  end.

(** [x.count(c)] for a one-character [c]. *)
Fixpoint str_count (c : ascii) (x : str) : Z :=
  match x with
  | [] => 0%Z
  | a :: x' => ((if Ascii.eqb a c then 1 else 0) + str_count c x')%Z
  end.

(** [[
def parity(x):
    return "{:b}".format(x).count("1") % 2
]] *)
Definition parity (x : Z) : Z :=
  (str_count "1" (format_b x) mod 2)%Z.

(* ================================================================= *)
(** ** Vocabulary for the further properties *)

(** Every edge joins two distinct lines of an [N]-line register. *)
Definition edges_ok (G : Graph) : bool :=
  forallb (fun e => (fst e <? number_of_nodes G)
                    && (snd e <? number_of_nodes G)
                    && negb (fst e =? snd e)) (edges G).

(** Every node is a line of an [N]-line register. *)
Definition nodes_ok (G : Graph) : bool :=
  forallb (fun q => q <? number_of_nodes G) (nodes G).

(** The graph with node [i] renamed to [n - 1 - i]. *)
Definition mirror (n : nat) (G : Graph) : Graph :=
  mkGraph (map (fun i => n - 1 - i) (nodes G))
          (map (fun e => (n - 1 - fst e, n - 1 - snd e)) (edges G)).

(** An edge as an unordered pair: smaller endpoint first. *)
Definition unordered (e : nat * nat) : nat * nat :=
  (Nat.min (fst e) (snd e), Nat.max (fst e) (snd e)).

(** [d.get(k)] *)
Fixpoint dict_lookup {V : Type} (k : str) (d : dict V) : option V :=
  match d with
  | [] => None
  | (k', v) :: d' => if str_eqb k k' then Some v else dict_lookup k d'
  end.

(** The bar over cut value [c], if there is one. *)
Fixpoint bar_lookup (c : Z) (energies : list (Z * Z)) : option Z :=
  match energies with
  | [] => None
  | (c', w) :: rest => if (c =? c')%Z then Some w else bar_lookup c rest
  end.

(** The occurrences of the keys whose cut value is [c]. *)
Definition count_at (c : Z) (counts : dict Z) (G : Graph) : Z :=
  sumZ (map snd (filter (fun kv => (cut_value (fst kv) G =? c)%Z) counts)).

(** One turn of the histogram loop on a key that scores. *)
Definition histogram_step (G : Graph) (energies : list (Z * Z)) (kv : str * Z)
  : list (Z * Z) :=
  defaultdict_add (cut_value (fst kv) G) (snd kv) energies.

(** The sum of (cut value) x (height) over the bars. *)
Definition bars_moment (h : list (Z * Z)) : Z :=
  sumZ (map (fun b => (fst b * snd b)%Z) h).

(** The number of ['1'] digits of a natural number's binary form. *)
Definition ones (n : N) : Z :=
  match n with
  | N0 => 0%Z
  | Npos p => str_count "1" (pos_bits p)
  end.

(** How many instructions of a program satisfy [f]. *)
Definition count_instr {F : Type} (f : Instruction F -> bool)
    (l : list (Instruction F)) : nat :=
  length (filter f l).

Definition is_measure {F : Type} (ins : Instruction F) : bool :=
  match ins with
  | Measure _ _ => true
  | _ => false
  end.

Definition is_rx_on {F : Type} (q : nat) (ins : Instruction F) : bool :=
  match ins with
  | Gate_rx _ q' => q' =? q
  | _ => false
  end.

(* ################################################################# *)
(** * Properties *)

(* ================================================================= *)
(** ** Loops and strings *)

Lemma for_each_ext {A S : Type} (l : list A) (f g : S -> A -> result S) :
  (forall st x, In x l -> f st x = g st x) ->
  forall st, for_each l st f = for_each l st g.
Proof.
  induction l as [|x l IH]; intros Hfg st; simpl.
  - reflexivity.
  - rewrite (Hfg st x) by (left; reflexivity).
    destruct (g st x) as [st'|e]; simpl; [|reflexivity].
    apply IH. intros st0 y Hy. apply Hfg. right. exact Hy.
Qed.

Lemma str_eqb_eq (a b : str) : str_eqb a b = true <-> a = b.
Proof.
  revert b. induction a as [|c a IH]; intros [|d b]; simpl; split; intros Heq;
    try reflexivity; try discriminate.
  - apply andb_true_iff in Heq. destruct Heq as [Hc Ha].
    apply Ascii.eqb_eq in Hc. apply IH in Ha. congruence.
  - inversion Heq; subst. apply andb_true_iff. split.
    + apply Ascii.eqb_refl.
    + apply IH. reflexivity.
Qed.

Lemma str_in_In (k : str) (l : list str) : str_in k l = true <-> In k l.
Proof.
  induction l as [|k' l IH]; simpl.
  - split; [discriminate | contradiction].
  - rewrite orb_true_iff, str_eqb_eq, IH. split; intros [Hk|Hk]; auto.
Qed.

Lemma distinct_keys_NoDup (l : list str) : distinct_keys l = true <-> NoDup l.
Proof.
  induction l as [|k l IH]; simpl.
  - split; [constructor | reflexivity].
  - rewrite andb_true_iff, negb_true_iff, IH, NoDup_cons_iff.
    rewrite <- (str_in_In k l). destruct (str_in k l); intuition congruence.
Qed.

Lemma getitem_Ok {A : Type} (x : list A) (i : nat) :
  i < length x -> exists a, nth_error x i = Some a /\ getitem x i = Ok a.
Proof.
  intros Hi. unfold getitem.
  destruct (nth_error x i) as [a|] eqn:Hn.
  - exists a. split; reflexivity.
  - apply nth_error_None in Hn. lia.
Qed.

Lemma getitem_Raise {A : Type} (x : list A) (i : nat) :
  length x <= i -> getitem x i = Raise IndexError.
Proof.
  intros Hi. unfold getitem. apply nth_error_None in Hi. rewrite Hi. reflexivity.
Qed.

(* ================================================================= *)
(** ** Graph invariant *)

Lemma existsb_eqb_In (n : nat) (l : list nat) :
  existsb (Nat.eqb n) l = true <-> In n l.
Proof.
  rewrite existsb_exists. split.
  - intros [m [Hm Hnm]]. apply Nat.eqb_eq in Hnm. subst. exact Hm.
  - intros Hn. exists n. split; [exact Hn | apply Nat.eqb_refl].
Qed.

Lemma wf_graph_nodes (G : Graph) :
  wf_graph G = true -> forall n, In n (nodes G) -> n < number_of_nodes G.
Proof.
  unfold wf_graph. rewrite !andb_true_iff. intros [[_ Hn] _] n Hin.
  rewrite forallb_forall in Hn. apply Nat.ltb_lt. apply Hn. exact Hin.
Qed.

Lemma wf_graph_edges (G : Graph) :
  wf_graph G = true ->
  forall i j, In (i, j) (edges G) ->
    i < number_of_nodes G /\ j < number_of_nodes G /\ i <> j.
Proof.
  intros Hwf i j Hin. pose proof (wf_graph_nodes G Hwf) as Hn.
  unfold wf_graph in Hwf. rewrite !andb_true_iff in Hwf. destruct Hwf as [_ He].
  rewrite forallb_forall in He. specialize (He (i, j) Hin). simpl in He.
  rewrite !andb_true_iff, negb_true_iff, !existsb_eqb_In, Nat.eqb_neq in He.
  destruct He as [[Hi Hj] Hij]. auto.
Qed.

Lemma wf_graph_covers (G : Graph) (x : str) :
  wf_graph G = true -> length x = number_of_nodes G -> covers x G = true.
Proof.
  intros Hwf Hlen. unfold covers. apply forallb_forall. intros [i j] Hin.
  destruct (wf_graph_edges G Hwf i j Hin) as [Hi [Hj _]]. simpl.
  rewrite Hlen. apply andb_true_iff. split; apply Nat.ltb_lt; assumption.
Qed.

(* ================================================================= *)
(** ** The classical objective *)

Example maxcut_obj_00011 : maxcut_obj (s "00011") G_demo = Ok (-6)%Z.
Proof. reflexivity. Qed.

Example maxcut_obj_11100 : maxcut_obj (s "11100") G_demo = Ok (-6)%Z.
Proof. reflexivity. Qed.

Example maxcut_obj_short : maxcut_obj (s "000") G_demo = Raise IndexError.
Proof. reflexivity. Qed.

(** The loop of [maxcut_obj] from any starting value of [cut]: it adds one
    term per edge, or stops at the first endpoint past the end of [x]. *)
Lemma maxcut_loop (x : str) (es : list (nat * nat)) (cut : Z) :
  for_each es cut (fun cut e =>
    let '(i, j) := e in
    xi <- getitem x i ;;
    xj <- getitem x j ;;
    if negb (Ascii.eqb xi xj) then Ok (cut - 1)%Z else Ok cut)
  = if forallb (fun e => (fst e <? length x) && (snd e <? length x)) es
    then Ok (cut + sumZ (map (fun e => if differ x (fst e) (snd e)
                                       then (-1)%Z else 0%Z) es))%Z
    else Raise IndexError.
Proof.
  revert cut. induction es as [|[i j] es IH]; intros cut;
    cbn [for_each forallb map sumZ fst snd].
  - f_equal. lia.
  - unfold differ at 1.
    destruct (Nat.ltb_spec i (length x)) as [Hi|Hi].
    + destruct (getitem_Ok x i Hi) as [a [Ha Hga]]. rewrite Hga, Ha.
      destruct (Nat.ltb_spec j (length x)) as [Hj|Hj].
      * destruct (getitem_Ok x j Hj) as [b [Hb Hgb]]. rewrite Hgb, Hb.
        cbn [bind andb].
        destruct (Ascii.eqb a b); cbn [bind negb]; rewrite IH;
          destruct (forallb _ es); try reflexivity; f_equal; lia.
      * rewrite (getitem_Raise x j Hj). reflexivity.
    + rewrite (getitem_Raise x i Hi). reflexivity.
Qed.

(** [maxcut_obj] in closed form. *)
Lemma maxcut_obj_closed (x : str) (G : Graph) :
  maxcut_obj x G = if covers x G then Ok (cut_value x G) else Raise IndexError.
Proof.
  unfold maxcut_obj, covers, cut_value. rewrite maxcut_loop.
  destruct (forallb _ (edges G)); reflexivity.
Qed.

Lemma cut_value_cut_edges (x : str) (G : Graph) :
  cut_value x G = (- Z.of_nat (length (cut_edges x G)))%Z.
Proof.
  unfold cut_value, cut_edges.
  induction (edges G) as [|e es IH]; cbn [map sumZ filter].
  - reflexivity.
  - rewrite IH. destruct (differ x (fst e) (snd e)); cbn [length]; lia.
Qed.

(** C1.  For a graph satisfying the graph invariant and a string [b] with
    one character per node, [maxcut_obj b G] returns a value [c] that is
    at most 0, and [-c] is the number of edges [(i,j)] of [G] whose
    endpoint characters [b[i]] and [b[j]] differ.  (The property holds for
    any characters, in particular for bitstrings over '0' and '1'.) *)
Theorem maxcut_obj_counts_cut_edges (G : Graph) (b : str) :
  wf_graph G = true ->
  length b = number_of_nodes G ->
  exists c : Z,
    maxcut_obj b G = Ok c /\
    (c <= 0)%Z /\
    (- c)%Z = Z.of_nat (length (cut_edges b G)).
Proof.
  intros Hwf Hlen. exists (cut_value b G).
  rewrite maxcut_obj_closed, (wf_graph_covers G b Hwf Hlen).
  rewrite cut_value_cut_edges. repeat split; lia.
Qed.

Lemma maxcut_obj_counts_cut_edges_witness :
  wf_graph G_demo = true /\
  length (s "11100") = number_of_nodes G_demo /\
  exists c : Z,
    maxcut_obj (s "11100") G_demo = Ok c /\
    (c <= 0)%Z /\
    (- c)%Z = Z.of_nat (length (cut_edges (s "11100") G_demo)).
Proof.
  split; [reflexivity|]. split; [reflexivity|].
  apply (maxcut_obj_counts_cut_edges G_demo (s "11100")); reflexivity.
Defined.

(** *** Complementing the string *)

Lemma is_bitstring_nth (x : str) (i : nat) (a : ascii) :
  is_bitstring x = true -> nth_error x i = Some a -> is_bit a = true.
Proof.
  unfold is_bitstring. rewrite forallb_forall. intros Hx Hn.
  apply Hx. eapply nth_error_In. exact Hn.
Qed.

Lemma flip_bit_eqb (a b : ascii) :
  is_bit a = true -> is_bit b = true ->
  Ascii.eqb (flip_bit a) (flip_bit b) = Ascii.eqb a b.
Proof.
  unfold is_bit, flip_bit. rewrite !orb_true_iff.
  intros [Ha|Ha] [Hb|Hb]; apply Ascii.eqb_eq in Ha, Hb; subst; reflexivity.
Qed.

Lemma getitem_complement (x : str) (i : nat) :
  getitem (complement x) i =
  match getitem x i with
  | Ok a => Ok (flip_bit a)
  | Raise e => Raise e
  end.
Proof.
  unfold getitem, complement. rewrite nth_error_map.
  destruct (nth_error x i); reflexivity.
Qed.

Example complement_demo :
  complement (s "11100") = s "00011" /\
  maxcut_obj (s "00011") G_demo = maxcut_obj (s "11100") G_demo.
Proof. split; reflexivity. Qed.

(** C10.  For every graph [G] and every bitstring [b] over '0' and '1',
    [maxcut_obj] returns the same on [b] and on the string obtained by
    flipping every bit of [b]: swapping the two sides of the cut leaves the
    cut value unchanged.  (No condition on the length of [b] is needed:
    when [b] is too short both calls raise [IndexError].) *)
Theorem maxcut_obj_complement (G : Graph) (b : str) :
  is_bitstring b = true ->
  maxcut_obj (complement b) G = maxcut_obj b G.
Proof.
  intros Hb. unfold maxcut_obj. apply for_each_ext.
  intros cut [i j] _. rewrite !getitem_complement.
  unfold getitem.
  destruct (nth_error b i) as [a|] eqn:Ha; [|reflexivity].
  destruct (nth_error b j) as [c|] eqn:Hc; [|reflexivity].
  cbn [bind]. rewrite flip_bit_eqb; [reflexivity| |].
  - exact (is_bitstring_nth b i a Hb Ha).
  - exact (is_bitstring_nth b j c Hb Hc).
Qed.

Lemma maxcut_obj_complement_witness :
  is_bitstring (s "11100") = true /\
  maxcut_obj (complement (s "11100")) G_demo = maxcut_obj (s "11100") G_demo.
Proof.
  split; [reflexivity|].
  apply (maxcut_obj_complement G_demo (s "11100")). reflexivity.
Defined.

(** The alphabet matters: on other characters the flip merges distinct
    sides. *)
Example complement_needs_bits :
  maxcut_obj (complement (s "aaabb")) G_demo = Ok 0%Z /\
  maxcut_obj (s "aaabb") G_demo = Ok (-6)%Z.
Proof. split; reflexivity. Qed.

(* ================================================================= *)
(** ** Energy of a sample *)

Lemma sumZ_app (l1 l2 : list Z) : sumZ (l1 ++ l2) = (sumZ l1 + sumZ l2)%Z.
Proof. induction l1 as [|a l1 IH]; cbn [app sumZ]; lia. Qed.

Lemma sumZ_Permutation (l1 l2 : list Z) :
  Permutation l1 l2 -> sumZ l1 = sumZ l2.
Proof. intros HP. induction HP; cbn [sumZ]; lia. Qed.

(** The accumulation loop of [compute_maxcut_energy] from any starting
    state. *)
Lemma energy_loop (G : Graph) (counts : dict Z) (energy total_counts : Z) :
  for_each counts (energy, total_counts) (energy_step G)
  = if all_cover counts G
    then Ok ((energy + weighted_cut counts G)%Z,
             (total_counts + total_count counts)%Z)
    else Raise IndexError.
Proof.
  revert energy total_counts.
  induction counts as [|[meas meas_count] counts IH]; intros energy total_counts.
  - cbn. f_equal. f_equal; lia.
  - cbn [for_each energy_step all_cover forallb fst].
    rewrite maxcut_obj_closed.
    destruct (covers meas G); cbn [bind andb]; [|reflexivity].
    rewrite IH. fold (all_cover counts G).
    destruct (all_cover counts G); [|reflexivity].
    unfold weighted_cut, total_count, values. cbn [map sumZ fst snd].
    f_equal. f_equal; lia.
Qed.

Lemma keys_cover (G : Graph) (counts : dict Z) :
  wf_graph G = true ->
  keys_have_length (number_of_nodes G) counts = true ->
  all_cover counts G = true.
Proof.
  intros Hwf Hk. unfold all_cover. apply forallb_forall. intros [k v] Hin.
  unfold keys_have_length in Hk. rewrite forallb_forall in Hk.
  apply wf_graph_covers; [exact Hwf|].
  apply Nat.eqb_eq. apply Hk. unfold keys.
  change k with (fst (k, v)). apply in_map. exact Hin.
Qed.

Section Energy.
Context {F : Type} `{PyFloat F}.

(** [compute_maxcut_energy] in closed form: a key that is too short for
    the graph raises [IndexError]; otherwise the two integer sums are
    divided. *)
Lemma compute_maxcut_energy_closed (counts : dict Z) (G : Graph) :
  compute_maxcut_energy (F := F) counts G
  = if all_cover counts G
    then truediv (weighted_cut counts G) (total_count counts)
    else Raise IndexError.
Proof.
  unfold compute_maxcut_energy. rewrite energy_loop.
  destruct (all_cover counts G); reflexivity.
Qed.

(** C2.  For a graph satisfying the graph invariant and an outcome
    distribution whose keys have one character per node and whose total
    occurrence count is positive, [compute_maxcut_energy] returns the
    occurrence-weighted mean of the cut value: the sum over the keys [b] of
    count(b) times the value [maxcut_obj] gives for [b], divided by the sum
    of all counts. *)
Theorem compute_maxcut_energy_weighted_mean (G : Graph) (counts : dict Z) :
  wf_graph G = true ->
  keys_have_length (number_of_nodes G) counts = true ->
  (0 < total_count counts)%Z ->
  compute_maxcut_energy (F := F) counts G
    = Ok (int_truediv (weighted_cut counts G) (total_count counts))
  /\ forall b, In b (keys counts) -> maxcut_obj b G = Ok (cut_value b G).
Proof.
  intros Hwf Hk Hpos. pose proof (keys_cover G counts Hwf Hk) as Hc. split.
  - rewrite compute_maxcut_energy_closed, Hc. unfold truediv.
    destruct (Z.eqb_spec (total_count counts) 0) as [H0|_]; [lia | reflexivity].
  - intros b Hb. rewrite maxcut_obj_closed.
    unfold keys in Hb. apply in_map_iff in Hb. destruct Hb as [[k v] [Hkb Hin]].
    cbn [fst] in Hkb. subst k.
    unfold all_cover in Hc. rewrite forallb_forall in Hc.
    specialize (Hc (b, v) Hin). cbn [fst] in Hc. rewrite Hc. reflexivity.
Qed.

(** C5.  [compute_maxcut_energy] fails on a distribution whose total
    occurrence count is zero: on the empty distribution always, and on any
    distribution of well-sized keys whose counts sum to zero.  The failure is
    the [ZeroDivisionError] of the final division, the error the
    specification names EmptyDistributionError. *)
Theorem compute_maxcut_energy_zero_total (G : Graph) :
  compute_maxcut_energy (F := F) [] G = Raise ZeroDivisionError
  /\ forall counts : dict Z,
       wf_graph G = true ->
       keys_have_length (number_of_nodes G) counts = true ->
       total_count counts = 0%Z ->
       compute_maxcut_energy (F := F) counts G = Raise ZeroDivisionError.
Proof.
  split.
  - reflexivity.
  - intros counts Hwf Hk H0.
    rewrite compute_maxcut_energy_closed, (keys_cover G counts Hwf Hk).
    unfold truediv. rewrite H0. reflexivity.
Qed.

(** C8.  Two outcome distributions that hold the same key-count pairs in
    different orders get the same result from [compute_maxcut_energy], for
    every graph: the same energy, or the same exception. *)
Theorem compute_maxcut_energy_order_independent
    (G : Graph) (counts1 counts2 : dict Z) :
  Permutation counts1 counts2 ->
  compute_maxcut_energy (F := F) counts1 G = compute_maxcut_energy (F := F) counts2 G.
Proof.
  intros HP. rewrite !compute_maxcut_energy_closed.
  assert (Hc : all_cover counts1 G = all_cover counts2 G).
  { unfold all_cover. apply eq_true_iff_eq. rewrite !forallb_forall.
    split; intros Hall kv Hin; apply Hall.
    - apply Permutation_sym in HP. eapply Permutation_in; eassumption.
    - eapply Permutation_in; eassumption. }
  assert (Hw : weighted_cut counts1 G = weighted_cut counts2 G).
  { unfold weighted_cut. apply sumZ_Permutation. apply Permutation_map. exact HP. }
  assert (Ht : total_count counts1 = total_count counts2).
  { unfold total_count, values. apply sumZ_Permutation. apply Permutation_map. exact HP. }
  rewrite Hc, Hw, Ht. reflexivity.
Qed.

End Energy.

(** The all-correct-partition distribution of the demo graph has energy -6. *)
Example energy_demo :
  exists q : Q,
    compute_maxcut_energy [(s "11100", 1000%Z); (s "00011", 24%Z)] G_demo = Ok q
    /\ Qeq q (-6 # 1).
Proof. eexists. split; [reflexivity | reflexivity]. Qed.

Example energy_short_key :
  compute_maxcut_energy (F := Q) [(s "11100", 1000%Z); (s "000", 24%Z)] G_demo
  = Raise IndexError.
Proof. reflexivity. Qed.

Lemma compute_maxcut_energy_weighted_mean_witness :
  let counts := [(s "11100", 3%Z); (s "00000", 1%Z)] in
  compute_maxcut_energy (F := Q) counts G_demo
    = Ok (int_truediv (weighted_cut counts G_demo) (total_count counts))
  /\ forall b, In b (keys counts) -> maxcut_obj b G_demo = Ok (cut_value b G_demo).
Proof.
  apply (compute_maxcut_energy_weighted_mean (F := Q) G_demo
           [(s "11100", 3%Z); (s "00000", 1%Z)]);
    [reflexivity | reflexivity | vm_compute; reflexivity].
Defined.

Lemma compute_maxcut_energy_zero_total_witness :
  compute_maxcut_energy (F := Q) [(s "11100", 0%Z); (s "00000", 0%Z)] G_demo
  = Raise ZeroDivisionError.
Proof.
  apply (proj2 (compute_maxcut_energy_zero_total (F := Q) G_demo));
    reflexivity.
Defined.

Lemma compute_maxcut_energy_order_independent_witness :
  compute_maxcut_energy (F := Q) [(s "11100", 3%Z); (s "00000", 1%Z)] G_demo
  = compute_maxcut_energy (F := Q) [(s "00000", 1%Z); (s "11100", 3%Z)] G_demo.
Proof.
  apply (compute_maxcut_energy_order_independent (F := Q) G_demo).
  apply perm_swap.
Defined.

(* ================================================================= *)
(** ** Best solution *)

(** The scan of [min]: the survivor splits the sequence into strictly
    larger items before it and items at least as large after it. *)
Lemma py_min_scan {A : Type} (key : A -> Z) (l : list A) (a : A) :
  let r := fold_left (fun best item =>
                        if (key item <? key best)%Z then item else best) l a in
  exists l1 l2,
    a :: l = l1 ++ r :: l2 /\
    Forall (fun k => (key r < key k)%Z) l1 /\
    Forall (fun k => (key r <= key k)%Z) l2.
Proof.
  revert a. induction l as [|x l IH]; intros a; cbn [fold_left].
  - exists [], []. repeat split; constructor.
  - destruct (Z.ltb_spec (key x) (key a)) as [Hlt|Hge].
    + destruct (IH x) as [l1 [l2 [Hsplit [H1 H2]]]]. cbv zeta in *.
      remember (fold_left _ l x) as r eqn:Er. clear Er.
      assert (Hrx : (key r <= key x)%Z).
      { destruct l1 as [|y l1]; cbn [app] in Hsplit;
          injection Hsplit as Hhead _.
        - rewrite Hhead. lia.
        - rewrite Hhead. apply Forall_inv in H1. lia. }
      exists (a :: l1), l2. repeat split.
      * cbn [app]. rewrite Hsplit. reflexivity.
      * constructor; [lia | exact H1].
      * exact H2.
    + destruct (IH a) as [l1 [l2 [Hsplit [H1 H2]]]]. cbv zeta in *.
      remember (fold_left _ l a) as r eqn:Er. clear Er.
      destruct l1 as [|y l1]; cbn [app] in Hsplit;
        injection Hsplit as Hhead Htail.
      * exists [], (x :: l). repeat split.
        -- cbn [app]. rewrite Hhead. reflexivity.
        -- constructor.
        -- constructor; [rewrite <- Hhead; lia|]. rewrite Htail. exact H2.
      * exists (a :: x :: l1), l2. repeat split.
        -- cbn [app]. rewrite Htail. reflexivity.
        -- pose proof (Forall_inv H1) as Hy. rewrite <- Hhead in Hy.
           constructor; [exact Hy|]. constructor; [lia|].
           exact (Forall_inv_tail H1).
        -- exact H2.
Qed.

Lemma list_comp_scored (G : Graph) (ks : list str) :
  Forall (fun k => covers k G = true) ks ->
  list_comp (fun x => c <- maxcut_obj x G ;; Ok (c, x)) ks
  = Ok (map (fun x => (cut_value x G, x)) ks).
Proof.
  induction 1 as [|k ks Hk _ IH]; cbn [list_comp map].
  - reflexivity.
  - rewrite maxcut_obj_closed, Hk. cbn [bind]. rewrite IH. reflexivity.
Qed.

Lemma all_cover_keys (G : Graph) (counts : dict Z) :
  all_cover counts G = true -> Forall (fun k => covers k G = true) (keys counts).
Proof.
  unfold all_cover, keys. rewrite forallb_forall, Forall_forall.
  intros Hall k Hk. apply in_map_iff in Hk. destruct Hk as [kv [Hkv Hin]].
  subst k. apply Hall. exact Hin.
Qed.

Example best_demo :
  best_report [(s "10100", 5%Z); (s "11100", 7%Z); (s "00011", 9%Z)] G_demo
  = Ok (s "11100", 6%Z).
Proof. reflexivity. Qed.

Example best_empty : best_selection [] G_demo = Raise ValueError.
Proof. reflexivity. Qed.

(** The first minimum of the scored keys, in the specification's terms:
    the pick carries its own [cut_value], every key before it has a
    strictly larger one, every key after it one at least as large. *)
Lemma best_selection_split (G : Graph) (counts : dict Z) :
  Forall (fun k => covers k G = true) (keys counts) ->
  counts <> [] ->
  exists (best : str) (before after : list str),
    best_selection counts G = Ok (cut_value best G, best) /\
    keys counts = before ++ best :: after /\
    (forall k, In k before -> (cut_value best G < cut_value k G)%Z) /\
    (forall k, In k after -> (cut_value best G <= cut_value k G)%Z).
Proof.
  intros Hcov Hne.
  assert (Hsel : best_selection counts G
                 = py_min fst (map (fun x => (cut_value x G, x)) (keys counts))).
  { unfold best_selection. rewrite (list_comp_scored G (keys counts) Hcov).
    reflexivity. }
  destruct counts as [|[k0 v0] counts]; [congruence|].
  cbn [keys map fst] in *. fold (keys counts) in *.
  set (score := fun x : str => (cut_value x G, x)) in *.
  cbn [py_min] in Hsel.
  destruct (py_min_scan fst (map score (keys counts)) (score k0))
    as [l1 [l2 [Hsplit [H1 H2]]]].
  cbv zeta in Hsplit, H1, H2.
  change (cut_value k0 G, k0) with (score k0) in Hsel.
  remember (fold_left _ (map score (keys counts)) (score k0)) as r eqn:Er in *.
  clear Er.
  change (score k0 :: map score (keys counts))
    with (map score (k0 :: keys counts)) in Hsplit.
  apply map_eq_app in Hsplit.
  destruct Hsplit as [before [rest [Hkeys [Hb Hrest]]]].
  destruct rest as [|best after]; [discriminate|].
  cbn [map] in Hrest. injection Hrest as Hr Hafter.
  exists best, before, after.
  rewrite Forall_forall in H1, H2.
  split; [|split; [|split]].
  - rewrite Hsel, <- Hr. reflexivity.
  - exact Hkeys.
  - intros k Hin. specialize (H1 (score k)).
    rewrite <- Hr in H1. cbn [fst score] in H1. apply H1.
    rewrite <- Hb. apply in_map. exact Hin.
  - intros k Hin. specialize (H2 (score k)).
    rewrite <- Hr in H2. cbn [fst score] in H2. apply H2.
    rewrite <- Hafter. apply in_map. exact Hin.
Qed.

Example best_spec_demo :
  let counts := [(s "10100", 5%Z); (s "11100", 7%Z); (s "00011", 9%Z)] in
  map (fun k => cut_value k G_demo) (keys counts) = [-4; -6; -6]%Z /\
  best_selection counts G_demo = Ok ((-6)%Z, s "11100").
Proof. split; reflexivity. Qed.

(** C6.  For a graph satisfying the graph invariant and a non-empty final
    distribution of well-sized keys, the best-solution cell picks the key
    [best] whose [cut_value] (the sum over the edges of -1 for each edge
    whose endpoint bits differ) is algebraically smallest among all keys;
    of several smallest keys it picks the one that comes first in the
    distribution's iteration order (every key before [best] has a strictly
    larger [cut_value], every key after it one at least as large); and it
    reports [- cut_value best], the number of edges [best] cuts, which no
    other key exceeds.  The value the cell works with is the one
    [maxcut_obj] returns, and that is the [cut_value] of each key. *)
Theorem best_selection_first_minimum (G : Graph) (counts : dict Z) :
  wf_graph G = true ->
  keys_have_length (number_of_nodes G) counts = true ->
  counts <> [] ->
  exists (best : str) (best_cut : Z) (before after : list str),
    best_selection counts G = Ok (best_cut, best) /\
    best_report counts G = Ok (best, (- best_cut)%Z) /\
    maxcut_obj best G = Ok best_cut /\
    keys counts = before ++ best :: after /\
    (forall k, In k before ->
       exists c, maxcut_obj k G = Ok c /\ (best_cut < c)%Z) /\
    (forall k, In k after ->
       exists c, maxcut_obj k G = Ok c /\ (best_cut <= c)%Z) /\
    best_cut = cut_value best G /\
    (forall k, In k before -> (cut_value best G < cut_value k G)%Z) /\
    (forall k, In k after -> (cut_value best G <= cut_value k G)%Z) /\
    (- best_cut)%Z = Z.of_nat (length (cut_edges best G)) /\
    (forall k, In k (keys counts) ->
       length (cut_edges k G) <= length (cut_edges best G)).
Proof.
  intros Hwf Hk Hne.
  pose proof (all_cover_keys G counts (keys_cover G counts Hwf Hk)) as Hcov.
  destruct (best_selection_split G counts Hcov Hne)
    as [best [before [after [Hsel [Hkeys [Hbefore Hafter]]]]]].
  assert (Hob : forall k, In k (keys counts) ->
                          maxcut_obj k G = Ok (cut_value k G)).
  { intros k Hin. rewrite maxcut_obj_closed.
    rewrite Forall_forall in Hcov. rewrite (Hcov k Hin). reflexivity. }
  assert (Hin_before : forall k, In k before -> In k (keys counts)).
  { intros k Hin. rewrite Hkeys. apply in_or_app. left. exact Hin. }
  assert (Hin_after : forall k, In k after -> In k (keys counts)).
  { intros k Hin. rewrite Hkeys. apply in_or_app. right. right. exact Hin. }
  assert (Hin_best : In best (keys counts)).
  { rewrite Hkeys. apply in_or_app. right. left. reflexivity. }
  exists best, (cut_value best G), before, after.
  split; [exact Hsel|].
  split; [unfold best_report; rewrite Hsel; reflexivity|].
  split; [exact (Hob best Hin_best)|].
  split; [exact Hkeys|].
  split.
  { intros k Hin. exists (cut_value k G).
    split; [exact (Hob k (Hin_before k Hin)) | exact (Hbefore k Hin)]. }
  split.
  { intros k Hin. exists (cut_value k G).
    split; [exact (Hob k (Hin_after k Hin)) | exact (Hafter k Hin)]. }
  split; [reflexivity|].
  split; [exact Hbefore|].
  split; [exact Hafter|].
  split; [rewrite cut_value_cut_edges; lia|].
  intros k Hin. rewrite Hkeys in Hin. apply in_app_or in Hin.
  assert (Hle : (cut_value best G <= cut_value k G)%Z).
  { destruct Hin as [Hin|[Hin|Hin]].
    - apply Z.lt_le_incl. exact (Hbefore k Hin).
    - subst k. lia.
    - exact (Hafter k Hin). }
  rewrite !cut_value_cut_edges in Hle. lia.
Qed.

Lemma best_selection_first_minimum_witness :
  let counts := [(s "10100", 5%Z); (s "11100", 7%Z); (s "00011", 9%Z)] in
  exists (best : str) (best_cut : Z) (before after : list str),
    best_selection counts G_demo = Ok (best_cut, best) /\
    best_report counts G_demo = Ok (best, (- best_cut)%Z) /\
    maxcut_obj best G_demo = Ok best_cut /\
    keys counts = before ++ best :: after /\
    (forall k, In k before ->
       exists c, maxcut_obj k G_demo = Ok c /\ (best_cut < c)%Z) /\
    (forall k, In k after ->
       exists c, maxcut_obj k G_demo = Ok c /\ (best_cut <= c)%Z) /\
    best_cut = cut_value best G_demo /\
    (forall k, In k before -> (cut_value best G_demo < cut_value k G_demo)%Z) /\
    (forall k, In k after -> (cut_value best G_demo <= cut_value k G_demo)%Z) /\
    (- best_cut)%Z = Z.of_nat (length (cut_edges best G_demo)) /\
    (forall k, In k (keys counts) ->
       length (cut_edges k G_demo) <= length (cut_edges best G_demo)).
Proof.
  apply (best_selection_first_minimum G_demo
           [(s "10100", 5%Z); (s "11100", 7%Z); (s "00011", 9%Z)]);
    [reflexivity | reflexivity | discriminate].
Defined.

(* ================================================================= *)
(** ** Bit-order normalisation *)

Lemma reversed_injective (a b : str) : reversed a = reversed b -> a = b.
Proof.
  unfold reversed. intros Hab.
  rewrite <- (rev_involutive a), <- (rev_involutive b), Hab. reflexivity.
Qed.

Lemma reversed_involutive (a : str) : reversed (reversed a) = a.
Proof. apply rev_involutive. Qed.

Lemma NoDup_map_reversed (l : list str) : NoDup l -> NoDup (map reversed l).
Proof.
  induction 1 as [|k l Hk _ IH]; cbn [map]; constructor.
  - intros Hin. apply in_map_iff in Hin. destruct Hin as [k' [Hrev Hin]].
    apply reversed_injective in Hrev. subst k'. contradiction.
  - exact IH.
Qed.

(** Assigning to a key the dict does not hold appends the item. *)
Lemma dict_set_fresh {V : Type} (k : str) (v : V) (d : dict V) :
  ~ In k (keys d) -> dict_set k v d = d ++ [(k, v)].
Proof.
  induction d as [|[k' v'] d IH]; cbn [dict_set keys map fst app In]; intros Hk.
  - reflexivity.
  - destruct (str_eqb k k') eqn:Heq.
    + apply str_eqb_eq in Heq. subst. exfalso. apply Hk. left. reflexivity.
    + rewrite IH; [reflexivity|]. intros Hin. apply Hk. right. exact Hin.
Qed.

Lemma keys_reverse_keys (d : dict Z) : keys (reverse_keys d) = map reversed (keys d).
Proof.
  unfold keys, reverse_keys. rewrite !map_map. reflexivity.
Qed.

Lemma values_reverse_keys (d : dict Z) : values (reverse_keys d) = values d.
Proof.
  unfold values, reverse_keys. rewrite map_map. reflexivity.
Qed.

(** The comprehension's loop from any dict built so far, as long as no
    reversed key is already present or repeated. *)
Lemma invert_loop (d acc : dict Z) :
  NoDup (keys acc ++ map reversed (keys d)) ->
  fold_left (fun acc kv => dict_set (reversed (fst kv)) (snd kv) acc) d acc
  = acc ++ reverse_keys d.
Proof.
  revert acc. induction d as [|[k v] d IH]; intros acc Hnd;
    cbn [fold_left reverse_keys map fst snd keys] in *.
  - rewrite app_nil_r. reflexivity.
  - fold (keys d) in Hnd. fold (reverse_keys d).
    rewrite dict_set_fresh.
    + rewrite IH.
      * rewrite <- app_assoc. reflexivity.
      * unfold keys at 1. rewrite map_app. cbn [map fst].
        rewrite <- app_assoc. exact Hnd.
    + apply NoDup_remove_2 in Hnd. intros Hin. apply Hnd.
      apply in_or_app. left. exact Hin.
Qed.

(** On a dict, the comprehension reverses every key in place. *)
Lemma invert_counts_reverse_keys (d : dict Z) :
  dict_ok d = true -> invert_counts d = reverse_keys d.
Proof.
  intros Hd. unfold invert_counts. rewrite invert_loop; [reflexivity|].
  cbn [keys map app]. apply NoDup_map_reversed.
  apply distinct_keys_NoDup. exact Hd.
Qed.

Lemma dict_ok_reverse_keys (d : dict Z) :
  dict_ok d = true -> dict_ok (reverse_keys d) = true.
Proof.
  unfold dict_ok. rewrite keys_reverse_keys, !distinct_keys_NoDup.
  apply NoDup_map_reversed.
Qed.

Lemma reverse_keys_involutive (d : dict Z) : reverse_keys (reverse_keys d) = d.
Proof.
  unfold reverse_keys. rewrite map_map. cbn [fst snd].
  rewrite <- (map_id d) at 2. apply map_ext. intros [k v]. cbn [fst snd].
  rewrite reversed_involutive. reflexivity.
Qed.

Example invert_counts_demo :
  invert_counts [(s "00111", 400%Z); (s "11000", 600%Z); (s "00001", 24%Z)]
  = [(s "11100", 400%Z); (s "00011", 600%Z); (s "10000", 24%Z)].
Proof. reflexivity. Qed.

(** C4.  [invert_counts] is an involution: on every outcome distribution
    (a Python dict, so no key occurs twice) applying it twice gives back
    the distribution, with the same items in the same order. *)
Theorem invert_counts_involutive (d : dict Z) :
  dict_ok d = true ->
  invert_counts (invert_counts d) = d.
Proof.
  intros Hd. rewrite (invert_counts_reverse_keys d Hd).
  rewrite (invert_counts_reverse_keys _ (dict_ok_reverse_keys d Hd)).
  apply reverse_keys_involutive.
Qed.

Lemma invert_counts_involutive_witness :
  let d := [(s "00111", 400%Z); (s "11000", 600%Z); (s "00001", 24%Z)] in
  invert_counts (invert_counts d) = d.
Proof.
  apply (invert_counts_involutive
           [(s "00111", 400%Z); (s "11000", 600%Z); (s "00001", 24%Z)]).
  reflexivity.
Defined.

(** C9.  On every outcome distribution [invert_counts] keeps the number of
    entries and the total occurrence count: reversal is injective, so the
    reversed keys are again pairwise distinct, the counts are carried over
    unchanged and in order, and their sum is the sum of the input's. *)
Theorem invert_counts_preserves_counts (d : dict Z) :
  dict_ok d = true ->
  length (invert_counts d) = length d /\
  total_count (invert_counts d) = total_count d /\
  values (invert_counts d) = values d /\
  keys (invert_counts d) = map reversed (keys d) /\
  dict_ok (invert_counts d) = true /\
  (forall a b : str, reversed a = reversed b -> a = b).
Proof.
  intros Hd. rewrite (invert_counts_reverse_keys d Hd).
  split; [|split; [|split; [|split; [|split]]]].
  - unfold reverse_keys. apply length_map.
  - unfold total_count. rewrite values_reverse_keys. reflexivity.
  - apply values_reverse_keys.
  - apply keys_reverse_keys.
  - apply dict_ok_reverse_keys. exact Hd.
  - exact reversed_injective.
Qed.

Lemma invert_counts_preserves_counts_witness :
  let d := [(s "00111", 400%Z); (s "11000", 600%Z); (s "00001", 24%Z)] in
  length (invert_counts d) = length d /\
  total_count (invert_counts d) = total_count d /\
  values (invert_counts d) = values d /\
  keys (invert_counts d) = map reversed (keys d) /\
  dict_ok (invert_counts d) = true /\
  (forall a b : str, reversed a = reversed b -> a = b).
Proof.
  apply (invert_counts_preserves_counts
           [(s "00111", 400%Z); (s "11000", 600%Z); (s "00001", 24%Z)]).
  reflexivity.
Defined.

(* ================================================================= *)
(** ** Circuit methods *)

Lemma range_in_register (n : nat) : forallb (fun q => q <? n) (range n) = true.
Proof.
  apply forallb_forall. intros q Hq. apply in_seq in Hq. apply Nat.ltb_lt. lia.
Qed.

Lemma skipn_nth_error {A : Type} (l : list A) (k : nat) (x : A) :
  nth_error l k = Some x -> skipn k l = x :: skipn (S k) l.
Proof.
  revert k. induction l as [|y l IH]; intros [|k] Hk; cbn in Hk; try discriminate.
  - injection Hk as ->. reflexivity.
  - cbn [skipn]. rewrite (IH k Hk). reflexivity.
Qed.

Section CircuitFacts.
Context {F : Type}.
Implicit Types (d : list (Instruction F)) (n m : nat).

Lemma cx_ok n m d (i j : nat) :
  i < n -> j < n -> i <> j ->
  cx i j (mkCircuit n m d) = Ok (mkCircuit n m (d ++ [Gate_cx i j])).
Proof.
  intros Hi Hj Hij. unfold cx, check_qubits. cbn [num_qubits forallb].
  rewrite (proj2 (Nat.ltb_lt i n) Hi), (proj2 (Nat.ltb_lt j n) Hj).
  cbn [andb bind]. rewrite (proj2 (Nat.eqb_neq i j) Hij). reflexivity.
Qed.

Lemma rz_ok n m d (theta : F) (q : nat) :
  q < n -> rz theta q (mkCircuit n m d) = Ok (mkCircuit n m (d ++ [Gate_rz theta q])).
Proof.
  intros Hq. unfold rz, check_qubits. cbn [num_qubits forallb].
  rewrite (proj2 (Nat.ltb_lt q n) Hq). reflexivity.
Qed.

Lemma rx_ok n m d (theta : F) (q : nat) :
  q < n -> rx theta q (mkCircuit n m d) = Ok (mkCircuit n m (d ++ [Gate_rx theta q])).
Proof.
  intros Hq. unfold rx, check_qubits. cbn [num_qubits forallb].
  rewrite (proj2 (Nat.ltb_lt q n) Hq). reflexivity.
Qed.

Lemma h_range_ok n m d :
  0 < n ->
  h (range n) (mkCircuit n m d) = Ok (mkCircuit n m (d ++ map Gate_h (range n))).
Proof.
  intros Hn. unfold h, check_qubits. cbn [num_qubits].
  rewrite range_in_register. cbn [bind].
  destruct n as [|n]; [lia | reflexivity].
Qed.

Lemma h_no_lines m d : h (range 0) (mkCircuit 0 m d) = Raise CircuitError.
Proof. reflexivity. Qed.

Lemma barrier_range_ok n m d :
  barrier (range n) (mkCircuit n m d) = Ok (mkCircuit n m (d ++ [Barrier (range n)])).
Proof.
  unfold barrier, check_qubits. cbn [num_qubits]. rewrite range_in_register.
  reflexivity.
Qed.

Lemma measure_range_ok n d :
  measure (range n) (range n) (mkCircuit n n d)
  = Ok (mkCircuit n n (d ++ map (fun q => Measure q q) (range n))).
Proof.
  unfold measure, check_qubits, check_clbits. cbn [num_qubits num_clbits].
  rewrite range_in_register. cbn [bind]. rewrite Nat.eqb_refl.
  unfold append. cbn [num_qubits num_clbits data]. do 3 f_equal.
  induction (range n) as [|q l IH]; cbn [combine map fst snd].
  - reflexivity.
  - rewrite IH. reflexivity.
Qed.

Lemma compose_ok n m d d' :
  compose (mkCircuit n m d') (mkCircuit n m d) = Ok (mkCircuit n m (d ++ d')).
Proof.
  unfold compose. cbn [num_qubits num_clbits data].
  rewrite !Nat.leb_refl. reflexivity.
Qed.

End CircuitFacts.

(* ================================================================= *)
(** ** Cost term, cost layer, mixer layer *)

Section QAOAFacts.
Context {F : Type} `{PyFloat F}.
Implicit Types (d : list (Instruction F)) (n m : nat).

Lemma append_zz_term_ok n m d (i j : nat) (gamma : F) :
  i < n -> j < n -> i <> j ->
  append_zz_term (mkCircuit n m d) i j gamma
  = Ok (mkCircuit n m (d ++ zz_term i j gamma)).
Proof.
  intros Hi Hj Hij. unfold append_zz_term.
  rewrite (cx_ok n m d i j Hi Hj Hij). cbn [bind].
  rewrite (rz_ok n m _ (twice gamma) j Hj). cbn [bind].
  rewrite (cx_ok n m _ i j Hi Hj Hij).
  rewrite <- !app_assoc. reflexivity.
Qed.

(** C7.  On a circuit whose register holds the two distinct lines [i] and
    [j], [append_zz_term] appends exactly three instructions, in this
    order: the entangling gate on [i] and [j], the phase rotation by
    [2*gamma] on line [j], the entangling gate on [i] and [j] again; the
    instructions already in the circuit and the two register sizes are
    unchanged. *)
Theorem append_zz_term_three_instructions
    (qc : QuantumCircuit F) (i j : nat) (gamma : F) :
  i <> j ->
  i < num_qubits qc ->
  j < num_qubits qc ->
  append_zz_term qc i j gamma
  = Ok (mkCircuit (num_qubits qc) (num_clbits qc)
          (data qc ++ [Gate_cx i j; Gate_rz (twice gamma) j; Gate_cx i j])).
Proof.
  intros Hij Hi Hj. destruct qc as [n m d]. cbn [num_qubits num_clbits data] in *.
  exact (append_zz_term_ok n m d i j gamma Hi Hj Hij).
Qed.

(** The edge loop of [get_cost_operator_circuit] on a circuit of the
    graph's size. *)
Lemma cost_loop (N : nat) (gamma : F) (es : list (nat * nat)) d :
  Forall (fun e => fst e < N /\ snd e < N /\ fst e <> snd e) es ->
  for_each es (mkCircuit N N d) (fun qc e =>
    let '(i, j) := e in
    qc <- append_zz_term qc i j gamma ;;
    barrier_all qc)
  = Ok (mkCircuit N N
          (d ++ flat_map (fun e => zz_term (fst e) (snd e) gamma
                                   ++ [Barrier (range N)]) es)).
Proof.
  intros Hes. revert d. induction Hes as [|[i j] es [Hi [Hj Hij]] _ IH]; intros d.
  - cbn [for_each flat_map]. rewrite app_nil_r. reflexivity.
  - cbn [fst snd] in Hi, Hj, Hij. cbn [for_each flat_map fst snd].
    rewrite (append_zz_term_ok N N d i j gamma Hi Hj Hij). cbn [bind].
    unfold barrier_all. cbn [num_qubits]. rewrite barrier_range_ok. cbn [bind].
    rewrite IH. rewrite <- !app_assoc. reflexivity.
Qed.

Lemma get_cost_operator_circuit_ok (G : Graph) (gamma : F) :
  wf_graph G = true ->
  get_cost_operator_circuit G gamma
  = Ok (mkCircuit (number_of_nodes G) (number_of_nodes G) (cost_layer G gamma)).
Proof.
  intros Hwf. unfold get_cost_operator_circuit, new_circuit, cost_layer.
  cbv zeta. rewrite cost_loop; [reflexivity|].
  apply Forall_forall. intros [i j] Hin. exact (wf_graph_edges G Hwf i j Hin).
Qed.

Lemma mixer_loop (N : nat) (beta : F) (ns : list nat) d :
  Forall (fun q => q < N) ns ->
  for_each ns (mkCircuit N N d) (fun qc q => append_x_term qc q beta)
  = Ok (mkCircuit N N (d ++ map (fun q => Gate_rx (twice beta) q) ns)).
Proof.
  intros Hns. revert d. induction Hns as [|q ns Hq _ IH]; intros d.
  - cbn [for_each map]. rewrite app_nil_r. reflexivity.
  - cbn [for_each map]. unfold append_x_term at 1.
    rewrite (rx_ok N N d (twice beta) q Hq). cbn [bind].
    rewrite IH. rewrite <- app_assoc. reflexivity.
Qed.

Lemma get_mixer_operator_circuit_ok (G : Graph) (beta : F) :
  wf_graph G = true ->
  get_mixer_operator_circuit G beta
  = Ok (mkCircuit (number_of_nodes G) (number_of_nodes G) (mixer_layer G beta)).
Proof.
  intros Hwf. unfold get_mixer_operator_circuit, new_circuit, mixer_layer.
  cbv zeta. rewrite mixer_loop; [reflexivity|].
  apply Forall_forall. exact (wf_graph_nodes G Hwf).
Qed.

End QAOAFacts.

(* ================================================================= *)
(** ** The assembled circuit *)

Section Assembler.
Context {F : Type} `{PyFloat F}.
Implicit Types (d : list (Instruction F)) (beta gamma : list F).

(** The layer loop of [get_qaoa_circuit], started at layer [k] with [n]
    layers to go. *)
Lemma qaoa_loop (G : Graph) beta gamma :
  wf_graph G = true ->
  length beta = length gamma ->
  forall (n k : nat) d,
    k + n = length beta ->
    for_each (seq k n)
             (mkCircuit (number_of_nodes G) (number_of_nodes G) d)
             (qaoa_step G beta gamma)
    = Ok (mkCircuit (number_of_nodes G) (number_of_nodes G)
            (d ++ flatten_layers
                    (alternating_layers G (skipn k beta) (skipn k gamma)))).
Proof.
  intros Hwf Hlen. induction n as [|n IH]; intros k d Hk.
  - cbn [seq for_each]. rewrite (skipn_all2 beta) by lia.
    cbn. rewrite app_nil_r. reflexivity.
  - cbn [seq for_each]. unfold qaoa_step at 1.
    destruct (getitem_Ok gamma k ltac:(lia)) as [g [Hg Hgg]].
    destruct (getitem_Ok beta k ltac:(lia)) as [b [Hb Hgb]].
    rewrite Hgg. cbn [bind].
    rewrite (get_cost_operator_circuit_ok G g Hwf). cbn [bind].
    rewrite compose_ok. cbn [bind].
    rewrite Hgb. cbn [bind].
    rewrite (get_mixer_operator_circuit_ok G b Hwf). cbn [bind].
    rewrite compose_ok. cbn [bind].
    rewrite (IH (S k)) by lia.
    rewrite (skipn_nth_error beta k b Hb), (skipn_nth_error gamma k g Hg).
    unfold alternating_layers, flatten_layers.
    cbn [combine map flat_map fst snd].
    rewrite <- !app_assoc. reflexivity.
Qed.

Lemma alternating_layers_nth (G : Graph) beta gamma (k : nat) (b g : F) :
  nth_error beta k = Some b ->
  nth_error gamma k = Some g ->
  nth_error (alternating_layers G beta gamma) k
  = Some (cost_layer G g, mixer_layer G b).
Proof.
  unfold alternating_layers. revert gamma k.
  induction beta as [|b0 beta IH]; intros [|g0 gamma] [|k] Hb Hg;
    cbn in Hb, Hg; try discriminate.
  - injection Hb as ->. injection Hg as ->. reflexivity.
  - cbn [combine map nth_error]. apply IH; assumption.
Qed.

Lemma alternating_layers_length (G : Graph) beta gamma :
  length beta = length gamma ->
  length (alternating_layers G beta gamma) = length beta.
Proof.
  intros Hlen. unfold alternating_layers.
  rewrite length_map, length_combine. lia.
Qed.

(** *** Leaving the separators out *)

Lemma without_barriers_app d d' :
  without_barriers (d ++ d') = without_barriers d ++ without_barriers d'.
Proof. apply filter_app. Qed.

Lemma without_barriers_gates {A : Type} (mk : A -> Instruction F) (l : list A) :
  (forall a, is_barrier (mk a) = false) ->
  without_barriers (map mk l) = map mk l.
Proof.
  intros Hmk. unfold without_barriers.
  induction l as [|a l IH]; cbn [map filter].
  - reflexivity.
  - rewrite (Hmk a). cbn [negb]. rewrite IH. reflexivity.
Qed.

Lemma without_barriers_cost_layer (G : Graph) (g : F) :
  without_barriers (cost_layer G g) = cost_terms G g.
Proof.
  unfold cost_layer, cost_terms.
  induction (edges G) as [|e es IH]; cbn [flat_map].
  - reflexivity.
  - rewrite !without_barriers_app, IH. reflexivity.
Qed.

Lemma without_barriers_mixer_layer (G : Graph) (b : F) :
  without_barriers (mixer_layer G b) = mixer_layer G b.
Proof.
  unfold mixer_layer. apply without_barriers_gates. reflexivity.
Qed.

Lemma without_barriers_layers (G : Graph) beta gamma :
  without_barriers (flatten_layers (alternating_layers G beta gamma))
  = flat_map (fun bg => cost_terms G (snd bg) ++ mixer_layer G (fst bg))
             (combine beta gamma).
Proof.
  unfold flatten_layers, alternating_layers.
  induction (combine beta gamma) as [|bg l IH]; cbn [map flat_map fst snd].
  - reflexivity.
  - rewrite !without_barriers_app, IH.
    rewrite without_barriers_cost_layer, without_barriers_mixer_layer.
    rewrite <- app_assoc. reflexivity.
Qed.

Lemma without_barriers_qaoa_program (G : Graph) beta gamma :
  without_barriers (qaoa_program G beta gamma) = qaoa_program_spec G beta gamma.
Proof.
  unfold qaoa_program, qaoa_program_spec. cbv zeta.
  rewrite !without_barriers_app, without_barriers_layers.
  unfold hadamard_layer, measurement.
  rewrite !without_barriers_gates by reflexivity. reflexivity.
Qed.

(** C3, as the code has it.  [get_qaoa_circuit] fails on its assertion
    whenever [beta] and [gamma] differ in length (the failure the
    specification names ParameterMismatchError), on every graph.
    Otherwise, on a graph satisfying the graph invariant that has at least
    one node, it succeeds with a circuit over [N] lines that consists of
    the Hadamard layer on all [N] lines, then exactly [p = len(beta)]
    alternating layers, layer [k] being the cost layer with [gamma[k]]
    followed by the mixer layer with [beta[k]], then the measurement of all
    [N] lines.  The separators the code inserts (after each edge's term and
    before the measurement) are the only other instructions. *)
Theorem get_qaoa_circuit_layout (G : Graph) beta gamma :
  (length beta <> length gamma ->
     get_qaoa_circuit G beta gamma = Raise AssertionError)
  /\
  (wf_graph G = true ->
   0 < number_of_nodes G ->
   length beta = length gamma ->
     get_qaoa_circuit G beta gamma
       = Ok (mkCircuit (number_of_nodes G) (number_of_nodes G)
               (qaoa_program G beta gamma))
     /\ length (alternating_layers G beta gamma) = length beta
     /\ (forall k b g,
           nth_error beta k = Some b ->
           nth_error gamma k = Some g ->
           nth_error (alternating_layers G beta gamma) k
           = Some (cost_layer G g, mixer_layer G b))
     /\ without_barriers (qaoa_program G beta gamma)
        = qaoa_program_spec G beta gamma).
Proof.
  split.
  - intros Hne. unfold get_qaoa_circuit.
    rewrite (proj2 (Nat.eqb_neq _ _) Hne). reflexivity.
  - intros Hwf HN Hlen. split; [|split; [|split]].
    + unfold get_qaoa_circuit. rewrite Hlen, Nat.eqb_refl. cbn [assert bind].
      cbv zeta. unfold new_circuit. rewrite (h_range_ok _ _ _ HN). cbn [bind app].
      unfold range at 2. rewrite <- Hlen.
      rewrite (qaoa_loop G beta gamma Hwf Hlen (length beta) 0) by lia.
      cbn [bind skipn]. rewrite barrier_range_ok. cbn [bind].
      rewrite measure_range_ok.
      unfold qaoa_program, hadamard_layer, measurement. cbv zeta.
      rewrite <- !app_assoc. reflexivity.
    + exact (alternating_layers_length G beta gamma Hlen).
    + intros k b g. apply alternating_layers_nth.
    + apply without_barriers_qaoa_program.
Qed.

End Assembler.

(* ================================================================= *)
(** ** The notebook's runs *)

Example append_zz_term_demo :
  append_zz_term (new_circuit 5 5) 0 3 (1 # 3)%Q
  = Ok (mkCircuit 5 5 [Gate_cx 0 3; Gate_rz (twice (1 # 3)%Q) 3; Gate_cx 0 3]).
Proof. reflexivity. Qed.

Example append_zz_term_same_line :
  append_zz_term (new_circuit 5 5) 3 3 (1 # 3)%Q = Raise CircuitError.
Proof. reflexivity. Qed.

Lemma append_zz_term_three_instructions_witness :
  let qc := mkCircuit 5 5 [Gate_h 0; Gate_h 3] in
  append_zz_term qc 0 3 (1 # 3)%Q
  = Ok (mkCircuit 5 5
          [Gate_h 0; Gate_h 3;
           Gate_cx 0 3; Gate_rz (twice (1 # 3)%Q) 3; Gate_cx 0 3]).
Proof.
  apply (append_zz_term_three_instructions
           (mkCircuit 5 5 [Gate_h 0; Gate_h 3]) 0 3 (1 # 3)%Q);
    cbn [num_qubits]; lia.
Defined.

(** [get_qaoa_circuit(G, [pi/3], [pi/2])] with rational stand-ins for the
    two angles: 5 Hadamards, 6 coupling terms of 3 gates, 5 rotations and
    5 measurements, and 7 separators. *)
Example get_qaoa_circuit_demo :
  exists qc,
    get_qaoa_circuit G_demo [(1 # 3)%Q] [(1 # 2)%Q] = Ok qc /\
    length (without_barriers (data qc)) = 5 + 6 * 3 + 5 + 5 /\
    length (data qc) = 5 + 6 * 3 + 5 + 5 + 7 /\
    firstn 9 (data qc)
    = [Gate_h 0; Gate_h 1; Gate_h 2; Gate_h 3; Gate_h 4;
       Gate_cx 0 3; Gate_rz (twice (1 # 2)%Q) 3; Gate_cx 0 3;
       Barrier [0; 1; 2; 3; 4]].
Proof. eexists. repeat split. Qed.

(** Outside the graph invariant the circuit methods reject the indices. *)
Example get_qaoa_circuit_gap_in_nodes :
  get_qaoa_circuit (mkGraph [0; 5] [(0, 5)]) [(1 # 3)%Q] [(1 # 2)%Q]
  = Raise CircuitError.
Proof. reflexivity. Qed.

Lemma get_qaoa_circuit_layout_witness :
  get_qaoa_circuit G_demo [(1 # 3)%Q; (1 # 5)%Q] [(1 # 2)%Q] = Raise AssertionError
  /\ get_qaoa_circuit G_demo [(1 # 3)%Q] [(1 # 2)%Q]
     = Ok (mkCircuit 5 5 (qaoa_program G_demo [(1 # 3)%Q] [(1 # 2)%Q])).
Proof.
  split.
  - apply (proj1 (get_qaoa_circuit_layout G_demo [(1 # 3)%Q; (1 # 5)%Q] [(1 # 2)%Q])).
    cbn [length]. lia.
  - apply (proj2 (get_qaoa_circuit_layout G_demo [(1 # 3)%Q] [(1 # 2)%Q]));
      [reflexivity | cbn; lia | reflexivity].
Defined.

(** C3 as stated fails on the graph with no nodes: the graph invariant
    holds and the two vectors have the same length, yet the call raises,
    because the Hadamard layer is applied to no line at all.  The same
    happens at any depth. *)
Lemma get_qaoa_circuit_no_nodes :
  wf_graph (mkGraph [] []) = true /\
  length (@nil Q) = length (@nil Q) /\
  get_qaoa_circuit (mkGraph [] []) (@nil Q) (@nil Q) = Raise CircuitError /\
  get_qaoa_circuit (mkGraph [] []) [(1 # 3)%Q] [(1 # 2)%Q] = Raise CircuitError.
Proof. repeat split. Qed.

(* ################################################################# *)
(** * Further properties of the notebook's code *)

(* ================================================================= *)
(** ** More on the classical objective *)

Lemma forallb_false_exists {A : Type} (f : A -> bool) (l : list A) :
  forallb f l = false <-> exists a, In a l /\ f a = false.
Proof.
  induction l as [|a l IH]; cbn [forallb In].
  - split; [discriminate | intros [a [[] _]]].
  - rewrite andb_false_iff, IH. split.
    + intros [Ha | [b [Hb Hfb]]]; [exists a | exists b]; auto.
    + intros [b [[Hab | Hb] Hfb]]; [left; congruence | right; exists b; auto].
Qed.

Lemma forallb_Permutation {A : Type} (f : A -> bool) (l l' : list A) :
  Permutation l l' -> forallb f l = forallb f l'.
Proof.
  intros HP. induction HP; cbn [forallb].
  - reflexivity.
  - rewrite IHHP. reflexivity.
  - rewrite !andb_assoc, (andb_comm (f y) (f x)). reflexivity.
  - congruence.
Qed.

Lemma forallb_map_compose {A B : Type} (f : B -> bool) (g : A -> B) (l : list A) :
  forallb f (map g l) = forallb (fun a => f (g a)) l.
Proof.
  induction l as [|a l IH]; cbn [map forallb]; [reflexivity|].
  rewrite IH. reflexivity.
Qed.

Lemma forallb_pointwise {A : Type} (f g : A -> bool) (l : list A) :
  (forall a, f a = g a) -> forallb f l = forallb g l.
Proof.
  intros Hfg. induction l as [|a l IH]; cbn [forallb]; [reflexivity|].
  rewrite Hfg, IH. reflexivity.
Qed.

Lemma covers_false (x : str) (G : Graph) :
  covers x G = false <->
  exists i j, In (i, j) (edges G) /\ (length x <= i \/ length x <= j).
Proof.
  unfold covers. rewrite forallb_false_exists. split.
  - intros [[i j] [Hin Hf]]. exists i, j. split; [exact Hin|].
    cbn [fst snd] in Hf. apply andb_false_iff in Hf.
    destruct Hf as [Hf|Hf]; apply Nat.ltb_ge in Hf; auto.
  - intros [i [j [Hin Hf]]]. exists (i, j). split; [exact Hin|].
    cbn [fst snd]. apply andb_false_iff.
    destruct Hf as [Hf|Hf]; [left|right]; apply Nat.ltb_ge; exact Hf.
Qed.

(** X1.  [maxcut_obj] raises exactly when some edge has an endpoint at or
    past the end of the string, and then the exception is [IndexError];
    it raises nothing else. *)
Theorem maxcut_obj_raises (x : str) (G : Graph) :
  (forall e, maxcut_obj x G = Raise e -> e = IndexError) /\
  (maxcut_obj x G = Raise IndexError <->
   exists i j, In (i, j) (edges G) /\ (length x <= i \/ length x <= j)).
Proof.
  rewrite maxcut_obj_closed, <- covers_false. destruct (covers x G); split.
  - intros e He. discriminate.
  - split; discriminate.
  - intros e He. congruence.
  - split; reflexivity.
Qed.

Lemma differ_app (x y : str) (i j : nat) :
  i < length x -> j < length x -> differ (x ++ y) i j = differ x i j.
Proof.
  intros Hi Hj. unfold differ. rewrite !nth_error_app1 by assumption. reflexivity.
Qed.

Lemma covers_edge (x : str) (G : Graph) (e : nat * nat) :
  covers x G = true -> In e (edges G) -> fst e < length x /\ snd e < length x.
Proof.
  unfold covers. rewrite forallb_forall. intros Hc Hin.
  specialize (Hc e Hin). apply andb_true_iff in Hc.
  destruct Hc as [Hi Hj]. split; apply Nat.ltb_lt; assumption.
Qed.

(** X2.  Characters past the last node are never read: when the string
    already reaches every edge endpoint, appending anything to it leaves
    the value of [maxcut_obj] unchanged. *)
Theorem maxcut_obj_ignores_tail (x y : str) (G : Graph) :
  covers x G = true ->
  maxcut_obj (x ++ y) G = maxcut_obj x G.
Proof.
  intros Hc. rewrite !maxcut_obj_closed, Hc.
  assert (Hc' : covers (x ++ y) G = true).
  { unfold covers. apply forallb_forall. intros e Hin.
    destruct (covers_edge x G e Hc Hin) as [Hi Hj].
    rewrite length_app. apply andb_true_iff. split; apply Nat.ltb_lt; lia. }
  rewrite Hc'. f_equal. unfold cut_value. f_equal.
  apply map_ext_in. intros e Hin.
  destruct (covers_edge x G e Hc Hin) as [Hi Hj].
  rewrite differ_app by assumption. reflexivity.
Qed.

Lemma maxcut_obj_ignores_tail_witness :
  maxcut_obj (s "11100" ++ s "garbage") G_demo = maxcut_obj (s "11100") G_demo.
Proof.
  apply (maxcut_obj_ignores_tail (s "11100") (s "garbage") G_demo). reflexivity.
Defined.

(** X3.  Whatever [maxcut_obj] returns lies between minus the number of
    edges and 0. *)
Theorem maxcut_obj_bounds (x : str) (G : Graph) (c : Z) :
  maxcut_obj x G = Ok c ->
  (- Z.of_nat (length (edges G)) <= c <= 0)%Z.
Proof.
  rewrite maxcut_obj_closed. destruct (covers x G); [|discriminate].
  intros Hc. injection Hc as <-. rewrite cut_value_cut_edges.
  pose proof (filter_length_le (fun e => differ x (fst e) (snd e)) (edges G)) as Hle.
  unfold cut_edges. lia.
Qed.

Lemma maxcut_obj_bounds_witness :
  (- Z.of_nat (length (edges G_demo)) <= -6 <= 0)%Z.
Proof.
  apply (maxcut_obj_bounds (s "11100") G_demo (-6)%Z). reflexivity.
Defined.

Lemma differ_sym (x : str) (i j : nat) : differ x i j = differ x j i.
Proof.
  unfold differ. destruct (nth_error x i) as [a|], (nth_error x j) as [b|];
    try reflexivity.
  rewrite (Ascii.eqb_sym a b). reflexivity.
Qed.

Lemma differ_unordered (x : str) (e : nat * nat) :
  differ x (fst (unordered e)) (snd (unordered e)) = differ x (fst e) (snd e).
Proof.
  destruct e as [i j]. unfold unordered. cbn [fst snd].
  destruct (Nat.le_ge_cases i j) as [Hij|Hij].
  - rewrite Nat.min_l, Nat.max_r by assumption. reflexivity.
  - rewrite Nat.min_r, Nat.max_l by assumption. apply differ_sym.
Qed.

Lemma in_range_unordered (n : nat) (e : nat * nat) :
  (fst (unordered e) <? n) && (snd (unordered e) <? n)
  = (fst e <? n) && (snd e <? n).
Proof.
  destruct e as [i j]. unfold unordered. cbn [fst snd].
  destruct (Nat.le_ge_cases i j) as [Hij|Hij].
  - rewrite Nat.min_l, Nat.max_r by assumption. reflexivity.
  - rewrite Nat.min_r, Nat.max_l by assumption. apply andb_comm.
Qed.

(** X4.  [maxcut_obj] depends only on the graph's edges as unordered pairs:
    two graphs whose edge enumerations agree up to the order of the edges
    and the order of the two endpoints of each edge get the same result,
    value or exception, on every string. *)
Theorem maxcut_obj_undirected (x : str) (G G' : Graph) :
  Permutation (map unordered (edges G)) (map unordered (edges G')) ->
  maxcut_obj x G = maxcut_obj x G'.
Proof.
  intros HP. rewrite !maxcut_obj_closed.
  assert (Hcov : forall H, covers x H
            = forallb (fun e => (fst e <? length x) && (snd e <? length x))
                      (map unordered (edges H))).
  { intros H. unfold covers. rewrite forallb_map_compose.
    apply forallb_pointwise. intros e. symmetry. apply in_range_unordered. }
  assert (Hcut : forall H, cut_value x H
            = sumZ (map (fun e => if differ x (fst e) (snd e) then (-1)%Z else 0%Z)
                        (map unordered (edges H)))).
  { intros H. unfold cut_value. rewrite map_map. f_equal.
    apply map_ext. intros e. rewrite differ_unordered. reflexivity. }
  rewrite (Hcov G), (Hcov G'), (Hcut G), (Hcut G').
  rewrite (forallb_Permutation _ _ _ HP).
  rewrite (sumZ_Permutation _ _ (Permutation_map _ HP)). reflexivity.
Qed.

Lemma maxcut_obj_undirected_witness :
  maxcut_obj (s "10100") G_demo
  = maxcut_obj (s "10100")
      (mkGraph [0; 1; 2; 3; 4] [(0, 3); (0, 4); (1, 3); (1, 4); (2, 3); (2, 4)]).
Proof.
  apply (maxcut_obj_undirected (s "10100") G_demo
           (mkGraph [0; 1; 2; 3; 4] [(0, 3); (0, 4); (1, 3); (1, 4); (2, 3); (2, 4)])).
  cbn. do 3 apply perm_skip. apply perm_swap.
Defined.

Lemma maxcut_obj_raises_witness :
  maxcut_obj (s "000") G_demo = Raise IndexError.
Proof.
  apply (proj2 (maxcut_obj_raises (s "000") G_demo)).
  exists 0, 3. split; [left; reflexivity | right; cbn; lia].
Defined.

(* ================================================================= *)
(** ** Bit order and the objective *)

Lemma differ_reversed (x : str) (i j : nat) :
  i < length x -> j < length x ->
  differ (reversed x) i j = differ x (length x - 1 - i) (length x - 1 - j).
Proof.
  intros Hi Hj. unfold differ, reversed. rewrite !nth_error_rev.
  rewrite (proj2 (Nat.ltb_lt _ _) Hi), (proj2 (Nat.ltb_lt _ _) Hj).
  replace (length x - S i) with (length x - 1 - i) by lia.
  replace (length x - S j) with (length x - 1 - j) by lia.
  reflexivity.
Qed.

Lemma covers_reversed (x : str) (G : Graph) : covers (reversed x) G = covers x G.
Proof. unfold covers, reversed. rewrite length_rev. reflexivity. Qed.

Lemma covers_mirror (x : str) (G : Graph) :
  covers x G = true -> covers x (mirror (length x) G) = true.
Proof.
  intros Hc. unfold covers, mirror. cbn [edges].
  rewrite forallb_map_compose. apply forallb_forall. intros e Hin.
  destruct (covers_edge x G e Hc Hin) as [Hi Hj]. cbn [fst snd].
  apply andb_true_iff. split; apply Nat.ltb_lt; lia.
Qed.

Lemma cut_value_reversed (x : str) (G : Graph) :
  covers x G = true ->
  cut_value (reversed x) G = cut_value x (mirror (length x) G).
Proof.
  intros Hc. unfold cut_value, mirror. cbn [edges]. rewrite map_map. f_equal.
  apply map_ext_in. intros e Hin.
  destruct (covers_edge x G e Hc Hin) as [Hi Hj]. cbn [fst snd].
  rewrite differ_reversed by assumption. reflexivity.
Qed.

(** X5.  Scoring a reversed string is scoring the original string on the
    graph with node [i] renamed to [len(x) - 1 - i], provided the string
    reaches every edge endpoint. *)
Theorem maxcut_obj_reversed (x : str) (G : Graph) :
  covers x G = true ->
  maxcut_obj (reversed x) G = maxcut_obj x (mirror (length x) G).
Proof.
  intros Hc. rewrite !maxcut_obj_closed.
  rewrite covers_reversed, Hc, (covers_mirror x G Hc).
  rewrite (cut_value_reversed x G Hc). reflexivity.
Qed.

Lemma maxcut_obj_reversed_witness :
  maxcut_obj (reversed (s "10100")) G_demo
  = maxcut_obj (s "10100") (mirror 5 G_demo).
Proof.
  apply (maxcut_obj_reversed (s "10100") G_demo). reflexivity.
Defined.

(** Without the precondition the two sides part: the mirrored index is
    cut off at 0 and stays inside the string. *)
Example reversed_short_string :
  maxcut_obj (reversed (s "000")) G_demo = Raise IndexError /\
  maxcut_obj (s "000") (mirror 3 G_demo) = Ok 0%Z.
Proof. split; reflexivity. Qed.

Lemma keys_have_length_In (n : nat) (d : dict Z) (k : str) (v : Z) :
  keys_have_length n d = true -> In (k, v) d -> length k = n.
Proof.
  unfold keys_have_length, keys. rewrite forallb_forall. intros Hk Hin.
  apply Nat.eqb_eq. apply Hk. change k with (fst (k, v)). apply in_map. exact Hin.
Qed.

Section EnergyOrder.
Context {F : Type} `{PyFloat F}.

(** The energy of a table with every key reversed, on the mirrored
    graph. *)
Lemma energy_reverse_keys_mirror (G : Graph) (d : dict Z) (n : nat) :
  (forall k v, In (k, v) d -> covers k G = true /\ length k = n) ->
  compute_maxcut_energy (F := F) (reverse_keys d) G
  = compute_maxcut_energy (F := F) d (mirror n G).
Proof.
  intros Hcovk. rewrite !compute_maxcut_energy_closed.
  assert (H1 : all_cover (reverse_keys d) G = true).
  { unfold all_cover, reverse_keys. rewrite forallb_map_compose.
    apply forallb_forall. intros [k v] Hin. cbn [fst].
    rewrite covers_reversed. apply (Hcovk k v Hin). }
  assert (H2 : all_cover d (mirror n G) = true).
  { unfold all_cover. apply forallb_forall. intros [k v] Hin. cbn [fst].
    destruct (Hcovk k v Hin) as [Hc Hl]. rewrite <- Hl.
    apply covers_mirror. exact Hc. }
  rewrite H1, H2. f_equal.
  - unfold weighted_cut, reverse_keys. rewrite map_map. f_equal.
    apply map_ext_in. intros [k v] Hin. cbn [fst snd].
    destruct (Hcovk k v Hin) as [Hc Hl].
    rewrite (cut_value_reversed k G Hc), Hl. reflexivity.
  - unfold total_count. rewrite values_reverse_keys. reflexivity.
Qed.

Lemma well_sized_keys_cover (G : Graph) (d : dict Z) :
  wf_graph G = true ->
  keys_have_length (number_of_nodes G) d = true ->
  forall k v, In (k, v) d -> covers k G = true /\ length k = number_of_nodes G.
Proof.
  intros Hwf Hk k v Hin.
  pose proof (keys_have_length_In _ d k v Hk Hin) as Hl.
  split; [|exact Hl]. apply wf_graph_covers; assumption.
Qed.

(** X6.  Normalising the bit order before computing the energy is the same
    as computing the energy of the raw table on the mirrored graph: for a
    well-formed graph and a dict whose keys have one character per node,
    [compute_maxcut_energy(invert_counts(d), G)] equals
    [compute_maxcut_energy(d, G')] with [G'] the graph whose node [i] is
    renamed [N - 1 - i]. *)
Theorem compute_maxcut_energy_invert_counts (G : Graph) (d : dict Z) :
  wf_graph G = true ->
  dict_ok d = true ->
  keys_have_length (number_of_nodes G) d = true ->
  compute_maxcut_energy (F := F) (invert_counts d) G
  = compute_maxcut_energy (F := F) d (mirror (number_of_nodes G) G).
Proof.
  intros Hwf Hd Hk. rewrite (invert_counts_reverse_keys d Hd).
  apply energy_reverse_keys_mirror.
  exact (well_sized_keys_cover G d Hwf Hk).
Qed.

End EnergyOrder.

Lemma compute_maxcut_energy_invert_counts_witness :
  compute_maxcut_energy (F := Q)
    (invert_counts [(s "00111", 3%Z); (s "10000", 1%Z)]) G_demo
  = compute_maxcut_energy (F := Q)
      [(s "00111", 3%Z); (s "10000", 1%Z)] (mirror 5 G_demo).
Proof.
  apply (compute_maxcut_energy_invert_counts (F := Q) G_demo
           [(s "00111", 3%Z); (s "10000", 1%Z)]); reflexivity.
Defined.

Lemma str_eqb_reversed (a b : str) :
  str_eqb (reversed a) (reversed b) = str_eqb a b.
Proof.
  apply eq_true_iff_eq. rewrite !str_eqb_eq. split.
  - apply reversed_injective.
  - intros ->. reflexivity.
Qed.

(** X7.  After [invert_counts] the count stored under a reversed key is
    the count the input stored under the key itself, and a key absent from
    the input has its reversal absent from the output. *)
Theorem invert_counts_lookup (d : dict Z) (k : str) :
  dict_ok d = true ->
  dict_lookup (reversed k) (invert_counts d) = dict_lookup k d.
Proof.
  intros Hd. rewrite (invert_counts_reverse_keys d Hd). clear Hd.
  unfold reverse_keys.
  induction d as [|[k' v] d IH]; cbn [map dict_lookup fst snd].
  - reflexivity.
  - rewrite str_eqb_reversed, IH. reflexivity.
Qed.

Lemma invert_counts_lookup_witness :
  dict_lookup (reversed (s "10000"))
              (invert_counts [(s "00111", 3%Z); (s "10000", 1%Z)])
  = dict_lookup (s "10000") [(s "00111", 3%Z); (s "10000", 1%Z)].
Proof.
  apply (invert_counts_lookup [(s "00111", 3%Z); (s "10000", 1%Z)] (s "10000")).
  reflexivity.
Defined.

(* ================================================================= *)
(** ** Range and failures of the energy *)

Lemma cut_value_bounds (x : str) (G : Graph) :
  (- Z.of_nat (length (edges G)) <= cut_value x G <= 0)%Z.
Proof.
  rewrite cut_value_cut_edges.
  pose proof (filter_length_le (fun e => differ x (fst e) (snd e)) (edges G)) as Hle.
  unfold cut_edges. lia.
Qed.

Lemma weighted_cut_bounds (G : Graph) (counts : dict Z) :
  Forall (fun v => (0 <= v)%Z) (values counts) ->
  (- Z.of_nat (length (edges G)) * total_count counts
     <= weighted_cut counts G <= 0)%Z.
Proof.
  unfold weighted_cut, total_count, values.
  induction counts as [|[k v] counts IH]; cbn [map sumZ fst snd]; intros Hv.
  - lia.
  - pose proof (Forall_inv Hv) as Hv0. cbn beta in Hv0.
    specialize (IH (Forall_inv_tail Hv)).
    pose proof (cut_value_bounds k G) as Hk. nia.
Qed.

Section EnergyRange.
Context {F : Type} `{PyFloat F}.

(** X8.  With well-sized keys, no negative count and a positive total,
    [compute_maxcut_energy] returns the quotient [num / den] of two
    integers, the count-weighted sum of the cut values and the total
    count, with [den > 0] and [-|E| * den <= num <= 0]: the ratio that is
    divided lies between minus the number of edges and 0. *)
Theorem compute_maxcut_energy_range (G : Graph) (counts : dict Z) :
  wf_graph G = true ->
  keys_have_length (number_of_nodes G) counts = true ->
  Forall (fun v => (0 <= v)%Z) (values counts) ->
  (0 < total_count counts)%Z ->
  exists num den : Z,
    compute_maxcut_energy (F := F) counts G = Ok (int_truediv num den) /\
    num = weighted_cut counts G /\
    den = total_count counts /\
    (0 < den)%Z /\
    (- Z.of_nat (length (edges G)) * den <= num <= 0)%Z.
Proof.
  intros Hwf Hk Hv Hpos.
  exists (weighted_cut counts G), (total_count counts).
  pose proof (weighted_cut_bounds G counts Hv) as Hb.
  split; [|split; [reflexivity|split; [reflexivity|split; [exact Hpos|exact Hb]]]].
  rewrite compute_maxcut_energy_closed, (keys_cover G counts Hwf Hk).
  unfold truediv. destruct (Z.eqb_spec (total_count counts) 0); [lia|].
  reflexivity.
Qed.

End EnergyRange.

Lemma compute_maxcut_energy_range_witness :
  let counts := [(s "11100", 3%Z); (s "10000", 1%Z)] in
  exists num den : Z,
    compute_maxcut_energy (F := Q) counts G_demo = Ok (int_truediv num den) /\
    num = weighted_cut counts G_demo /\
    den = total_count counts /\
    (0 < den)%Z /\
    (- Z.of_nat (length (edges G_demo)) * den <= num <= 0)%Z.
Proof.
  apply (compute_maxcut_energy_range (F := Q) G_demo
           [(s "11100", 3%Z); (s "10000", 1%Z)]);
    [reflexivity | reflexivity
    | unfold values; cbn [map snd];
      repeat (apply Forall_cons; [cbn beta; lia|]); apply Forall_nil
    | vm_compute; reflexivity].
Defined.

(** A negative count can push the numerator out of that range. *)
Example weighted_cut_negative_count :
  let counts := [(s "11100", 3%Z); (s "00000", (-2)%Z)] in
  weighted_cut counts G_demo = (-18)%Z /\ total_count counts = 1%Z.
Proof. split; reflexivity. Qed.

Lemma all_cover_false (counts : dict Z) (G : Graph) :
  all_cover counts G = false <-> exists k, In k (keys counts) /\ covers k G = false.
Proof.
  unfold all_cover, keys. rewrite forallb_false_exists. split.
  - intros [[k v] [Hin Hc]]. exists k. split; [|exact Hc].
    change k with (fst (k, v)). apply in_map. exact Hin.
  - intros [k [Hin Hc]]. apply in_map_iff in Hin.
    destruct Hin as [kv [Hkv Hin]]. exists kv. subst k. auto.
Qed.

Section EnergyFailures.
Context {F : Type} `{PyFloat F}.

(** X9.  On a table with no negative count, [compute_maxcut_energy]
    raises [IndexError] exactly when some key is too short for the graph,
    and raises [ZeroDivisionError] exactly when every key is long enough
    and the counts sum to zero; it raises nothing else.  In particular a
    table with a short key and a zero total fails with [IndexError]. *)
Theorem compute_maxcut_energy_raises (G : Graph) (counts : dict Z) :
  Forall (fun v => (0 <= v)%Z) (values counts) ->
  (compute_maxcut_energy (F := F) counts G = Raise IndexError <->
     exists k, In k (keys counts) /\ covers k G = false) /\
  (compute_maxcut_energy (F := F) counts G = Raise ZeroDivisionError <->
     all_cover counts G = true /\ total_count counts = 0%Z) /\
  (forall e, compute_maxcut_energy (F := F) counts G = Raise e ->
     e = IndexError \/ e = ZeroDivisionError).
Proof.
  intros _.
  rewrite compute_maxcut_energy_closed, <- all_cover_false. unfold truediv.
  destruct (all_cover counts G);
    [destruct (Z.eqb_spec (total_count counts) 0) as [H0|H0]|];
    repeat split; try discriminate; try tauto; try congruence;
    try (intros [? ?]; congruence); intros e He; injection He as <-; auto.
Qed.

End EnergyFailures.

Lemma compute_maxcut_energy_raises_witness :
  compute_maxcut_energy (F := Q) [(s "11100", 0%Z); (s "000", 0%Z)] G_demo
  = Raise IndexError.
Proof.
  assert (Hv : Forall (fun v => (0 <= v)%Z)
                      (values [(s "11100", 0%Z); (s "000", 0%Z)])).
  { unfold values; cbn [map snd].
    repeat (apply Forall_cons; [cbn beta; lia|]); apply Forall_nil. }
  apply (proj1 (compute_maxcut_energy_raises (F := Q) G_demo
                  [(s "11100", 0%Z); (s "000", 0%Z)] Hv)).
  exists (s "000"). split; [right; left; reflexivity | reflexivity].
Defined.

(* ================================================================= *)
(** ** The histogram of cut values *)

(** The histogram loop from any table built so far. *)
Lemma histogram_loop (G : Graph) (counts : dict Z) (energies : list (Z * Z)) :
  for_each counts energies (fun energies kv =>
    let '(k, v) := kv in
    c <- maxcut_obj k G ;;
    Ok (defaultdict_add c v energies))
  = if all_cover counts G
    then Ok (fold_left (histogram_step G) counts energies)
    else Raise IndexError.
Proof.
  revert energies. induction counts as [|[k v] counts IH]; intros energies;
    cbn [for_each all_cover forallb fold_left fst].
  - reflexivity.
  - rewrite maxcut_obj_closed. destruct (covers k G); cbn [bind andb]; [|reflexivity].
    rewrite IH. reflexivity.
Qed.

Lemma bar_lookup_add (c c' v : Z) (h : list (Z * Z)) :
  bar_lookup c (defaultdict_add c' v h)
  = if (c =? c')%Z
    then Some (match bar_lookup c h with Some w => w + v | None => 0 + v end)%Z
    else bar_lookup c h.
Proof.
  induction h as [|[c0 w] h IH]; cbn [defaultdict_add bar_lookup].
  - destruct (Z.eqb_spec c c'); reflexivity.
  - destruct (Z.eqb_spec c' c0) as [->|Hne]; cbn [bar_lookup].
    + destruct (Z.eqb_spec c c0); reflexivity.
    + destruct (Z.eqb_spec c c0) as [->|Hne'].
      * destruct (Z.eqb_spec c0 c'); [congruence | reflexivity].
      * exact IH.
Qed.

Lemma bar_lookup_None (c : Z) (h : list (Z * Z)) :
  bar_lookup c h = None <-> ~ In c (map fst h).
Proof.
  induction h as [|[c0 w] h IH]; cbn [bar_lookup map fst In].
  - tauto.
  - destruct (Z.eqb_spec c c0) as [->|Hne].
    + split; [discriminate | intros Hn; exfalso; apply Hn; left; reflexivity].
    + rewrite IH. split; [intros Hn [He|Hi]; [congruence | tauto] | tauto].
Qed.

Lemma bar_lookup_In (c w : Z) (h : list (Z * Z)) :
  NoDup (map fst h) -> (In (c, w) h <-> bar_lookup c h = Some w).
Proof.
  induction h as [|[c0 w0] h IH]; cbn [bar_lookup map fst In]; intros Hnd.
  - split; [contradiction | discriminate].
  - apply NoDup_cons_iff in Hnd. destruct Hnd as [Hn Hnd].
    destruct (Z.eqb_spec c c0) as [->|Hne].
    + split.
      * intros [He|Hi]; [congruence|]. exfalso. apply Hn.
        change c0 with (fst (c0, w)). apply in_map. exact Hi.
      * intros He. left. congruence.
    + rewrite <- (IH Hnd). split; [intros [He|Hi]; [congruence | exact Hi] | auto].
Qed.

Lemma keys_defaultdict_add (c v : Z) (h : list (Z * Z)) :
  map fst (defaultdict_add c v h)
  = if existsb (Z.eqb c) (map fst h) then map fst h else map fst h ++ [c].
Proof.
  induction h as [|[c0 w] h IH]; cbn [defaultdict_add map fst existsb app].
  - reflexivity.
  - destruct (Z.eqb_spec c c0) as [->|Hne]; cbn [map fst orb].
    + reflexivity.
    + rewrite IH. destruct (existsb (Z.eqb c) (map fst h)); reflexivity.
Qed.

Lemma NoDup_defaultdict_add (c v : Z) (h : list (Z * Z)) :
  NoDup (map fst h) -> NoDup (map fst (defaultdict_add c v h)).
Proof.
  intros Hnd. rewrite keys_defaultdict_add.
  destruct (existsb (Z.eqb c) (map fst h)) eqn:Hex; [exact Hnd|].
  apply NoDup_app; [exact Hnd | repeat constructor; intros [] |].
  intros a Ha [Hc|[]]. subst a.
  assert (Hex' : existsb (Z.eqb c) (map fst h) = true).
  { apply existsb_exists. exists c. split; [exact Ha | apply Z.eqb_refl]. }
  congruence.
Qed.

Lemma sum_defaultdict_add (c v : Z) (h : list (Z * Z)) :
  sumZ (map snd (defaultdict_add c v h)) = (sumZ (map snd h) + v)%Z.
Proof.
  induction h as [|[c0 w] h IH]; cbn [defaultdict_add map snd sumZ].
  - lia.
  - destruct (Z.eqb_spec c c0); cbn [map snd sumZ]; [|rewrite IH]; lia.
Qed.

Lemma moment_defaultdict_add (c v : Z) (h : list (Z * Z)) :
  bars_moment (defaultdict_add c v h) = (bars_moment h + c * v)%Z.
Proof.
  unfold bars_moment.
  induction h as [|[c0 w] h IH]; cbn [defaultdict_add map fst snd sumZ].
  - lia.
  - destruct (Z.eqb_spec c c0) as [->|Hne]; cbn [map fst snd sumZ];
      [|rewrite IH]; lia.
Qed.

Lemma count_at_snoc (c : Z) (counts : dict Z) (kv : str * Z) (G : Graph) :
  count_at c (counts ++ [kv]) G
  = (count_at c counts G + if (cut_value (fst kv) G =? c)%Z then snd kv else 0)%Z.
Proof.
  unfold count_at. rewrite filter_app, map_app, sumZ_app. cbn [filter].
  destruct (cut_value (fst kv) G =? c)%Z; cbn [map snd sumZ]; lia.
Qed.

Lemma filter_none {A : Type} (f : A -> bool) (l : list A) :
  existsb f l = false -> filter f l = [].
Proof.
  induction l as [|a l IH]; cbn [existsb filter]; [reflexivity|].
  intros Hex. apply orb_false_iff in Hex. destruct Hex as [Ha Hl].
  rewrite Ha. exact (IH Hl).
Qed.

(** What the finished table holds under each cut value. *)
Lemma histogram_lookup (G : Graph) (counts : dict Z) (c : Z) :
  bar_lookup c (fold_left (histogram_step G) counts [])
  = if existsb (fun kv => (cut_value (fst kv) G =? c)%Z) counts
    then Some (count_at c counts G) else None.
Proof.
  induction counts as [|kv counts IH] using rev_ind.
  - reflexivity.
  - rewrite fold_left_app, existsb_app, count_at_snoc. cbn [fold_left existsb].
    unfold histogram_step at 1. rewrite bar_lookup_add, IH.
    rewrite (Z.eqb_sym c). rewrite orb_false_r.
    destruct (Z.eqb_spec (cut_value (fst kv) G) c) as [Hc|Hc].
    + rewrite orb_true_r.
      destruct (existsb _ counts) eqn:Hex; [reflexivity|].
      f_equal. unfold count_at. rewrite (filter_none _ _ Hex). reflexivity.
    + rewrite orb_false_r, Z.add_0_r. reflexivity.
Qed.

Lemma histogram_NoDup (G : Graph) (counts : dict Z) :
  NoDup (map fst (fold_left (histogram_step G) counts [])).
Proof.
  induction counts as [|kv counts IH] using rev_ind.
  - constructor.
  - rewrite fold_left_app. cbn [fold_left]. apply NoDup_defaultdict_add. exact IH.
Qed.

Lemma histogram_sum (G : Graph) (counts : dict Z) :
  sumZ (map snd (fold_left (histogram_step G) counts [])) = total_count counts.
Proof.
  induction counts as [|kv counts IH] using rev_ind.
  - reflexivity.
  - rewrite fold_left_app. cbn [fold_left]. unfold histogram_step at 1.
    rewrite sum_defaultdict_add, IH. unfold total_count, values.
    rewrite map_app, sumZ_app. cbn [map sumZ]. lia.
Qed.

Lemma histogram_moment (G : Graph) (counts : dict Z) :
  bars_moment (fold_left (histogram_step G) counts []) = weighted_cut counts G.
Proof.
  induction counts as [|kv counts IH] using rev_ind.
  - reflexivity.
  - rewrite fold_left_app. cbn [fold_left]. unfold histogram_step at 1.
    rewrite moment_defaultdict_add, IH. unfold weighted_cut.
    rewrite map_app, sumZ_app. cbn [map sumZ]. lia.
Qed.

Lemma existsb_cut (G : Graph) (counts : dict Z) (c : Z) :
  all_cover counts G = true ->
  (existsb (fun kv => (cut_value (fst kv) G =? c)%Z) counts = true <->
   exists k, In k (keys counts) /\ maxcut_obj k G = Ok c).
Proof.
  intros Hcov. pose proof (all_cover_keys G counts Hcov) as Hk.
  rewrite Forall_forall in Hk. rewrite existsb_exists. split.
  - intros [[k v] [Hin Hc]]. cbn [fst] in Hc. apply Z.eqb_eq in Hc.
    assert (Hkin : In k (keys counts)).
    { unfold keys. change k with (fst (k, v)). apply in_map. exact Hin. }
    exists k. split; [exact Hkin|].
    rewrite maxcut_obj_closed, (Hk k Hkin), Hc. reflexivity.
  - intros [k [Hkin Hc]]. rewrite maxcut_obj_closed, (Hk k Hkin) in Hc.
    injection Hc as Hc. unfold keys in Hkin. apply in_map_iff in Hkin.
    destruct Hkin as [kv [Hkv Hin]]. exists kv. split; [exact Hin|].
    rewrite Hkv. apply Z.eqb_eq. exact Hc.
Qed.

Example energy_histogram_demo :
  energy_histogram
    [(s "11100", 7%Z); (s "10000", 2%Z); (s "00011", 9%Z); (s "00000", 1%Z);
     (s "01000", 5%Z)] G_demo
  = Ok [((-6)%Z, 16%Z); ((-2)%Z, 7%Z); (0%Z, 1%Z)].
Proof. reflexivity. Qed.

(** X10.  When every key is long enough for the graph, the histogram cell
    ends with one bar per cut value that occurs among the keys, no cut
    value twice, and the height of the bar over [c] is the total count of
    the keys that [maxcut_obj] scores [c]. *)
Theorem energy_histogram_bars (G : Graph) (counts : dict Z) :
  all_cover counts G = true ->
  exists energies : list (Z * Z),
    energy_histogram counts G = Ok energies /\
    NoDup (map fst energies) /\
    forall c w : Z,
      In (c, w) energies <->
      (exists k, In k (keys counts) /\ maxcut_obj k G = Ok c)
      /\ w = count_at c counts G.
Proof.
  intros Hcov. exists (fold_left (histogram_step G) counts []).
  split; [|split].
  - unfold energy_histogram. rewrite histogram_loop, Hcov. reflexivity.
  - apply histogram_NoDup.
  - intros c w. rewrite (bar_lookup_In c w _ (histogram_NoDup G counts)).
    rewrite histogram_lookup, <- (existsb_cut G counts c Hcov).
    destruct (existsb _ counts); split.
    + intros Hw. injection Hw as <-. auto.
    + intros [_ ->]. reflexivity.
    + discriminate.
    + intros [Hf _]. discriminate.
Qed.

Lemma energy_histogram_bars_witness :
  let counts := [(s "11100", 7%Z); (s "10000", 2%Z); (s "00011", 9%Z)] in
  exists energies : list (Z * Z),
    energy_histogram counts G_demo = Ok energies /\
    NoDup (map fst energies) /\
    forall c w : Z,
      In (c, w) energies <->
      (exists k, In k (keys counts) /\ maxcut_obj k G_demo = Ok c)
      /\ w = count_at c counts G_demo.
Proof.
  apply (energy_histogram_bars G_demo
           [(s "11100", 7%Z); (s "10000", 2%Z); (s "00011", 9%Z)]).
  reflexivity.
Defined.

Lemma combine_fst_snd {A B : Type} (l : list (A * B)) :
  combine (map fst l) (map snd l) = l.
Proof.
  induction l as [|[a b] l IH]; cbn [map combine fst snd]; [reflexivity|].
  rewrite IH. reflexivity.
Qed.

(** Distinct integers between [-m] and 0 are at most [m + 1]. *)
Lemma NoDup_range_length (m : nat) (xs : list Z) :
  NoDup xs ->
  Forall (fun x => (- Z.of_nat m <= x <= 0)%Z) xs ->
  length xs <= S m.
Proof.
  intros Hnd Hr. rewrite Forall_forall in Hr.
  rewrite <- (length_map (fun x => Z.to_nat (- x)) xs), <- (length_seq (S m) 0).
  apply NoDup_incl_length.
  - apply NoDup_map_NoDup_ForallPairs; [|exact Hnd].
    intros a b Ha Hb Hab. specialize (Hr a Ha) as Hra. specialize (Hr b Hb) as Hrb. lia.
  - intros n Hn. apply in_map_iff in Hn. destruct Hn as [x [<- Hx]].
    specialize (Hr x Hx). apply in_seq. lia.
Qed.

Lemma histogram_nonempty (G : Graph) (counts : dict Z) :
  counts <> [] -> fold_left (histogram_step G) counts [] <> [].
Proof.
  destruct counts as [|kv counts _] using rev_ind; [congruence|].
  intros _. rewrite fold_left_app. cbn [fold_left]. unfold histogram_step at 1.
  destruct (fold_left (histogram_step G) counts []) as [|[c0 w0] h];
    cbn [defaultdict_add]; [discriminate|].
  destruct (Z.eqb _ c0); discriminate.
Qed.

Example energy_bars_demo :
  energy_bars [(s "11100", 7%Z); (s "10000", 2%Z); (s "00011", 9%Z)] G_demo
  = Ok ([(-6)%Z; (-2)%Z], [16%Z; 2%Z]).
Proof. reflexivity. Qed.

(** X11.  With keys long enough for the graph, the plotting cell fails
    with [ValueError] on an empty table (nothing to unpack), and otherwise
    yields bar positions and heights of equal number: the positions are
    pairwise distinct, at most one more than the number of edges, the
    heights sum to the total count, and the positions weighted by the
    heights sum to the numerator of the energy. *)
Theorem energy_bars_behaviour (G : Graph) (counts : dict Z) :
  all_cover counts G = true ->
  (counts = [] -> energy_bars counts G = Raise ValueError) /\
  (counts <> [] ->
   exists xs ys : list Z,
     energy_bars counts G = Ok (xs, ys) /\
     length xs = length ys /\
     NoDup xs /\
     length xs <= S (length (edges G)) /\
     sumZ ys = total_count counts /\
     bars_moment (combine xs ys) = weighted_cut counts G).
Proof.
  intros Hcov. split.
  - intros ->. reflexivity.
  - intros Hne. set (h := fold_left (histogram_step G) counts []).
    exists (map fst h), (map snd h).
    assert (Hh : energy_histogram counts G = Ok h).
    { unfold energy_histogram. rewrite histogram_loop, Hcov. reflexivity. }
    split; [|split; [|split; [|split; [|split]]]].
    + unfold energy_bars. rewrite Hh. cbn [bind]. unfold unzip_items.
      pose proof (histogram_nonempty G counts Hne) as Hhne. fold h in Hhne.
      destruct h; [congruence | reflexivity].
    + rewrite !length_map. reflexivity.
    + apply histogram_NoDup.
    + apply NoDup_range_length; [apply histogram_NoDup|].
      apply Forall_forall. intros c Hc.
      destruct (bar_lookup c h) as [w|] eqn:Hl.
      * unfold h in Hl. rewrite histogram_lookup in Hl.
        destruct (existsb _ counts) eqn:Hex; [|discriminate].
        apply existsb_exists in Hex. destruct Hex as [kv [_ Hkv]].
        apply Z.eqb_eq in Hkv. rewrite <- Hkv. apply cut_value_bounds.
      * apply bar_lookup_None in Hl. contradiction.
    + apply histogram_sum.
    + rewrite combine_fst_snd. apply histogram_moment.
Qed.

Lemma energy_bars_behaviour_witness :
  let counts := [(s "11100", 7%Z); (s "10000", 2%Z); (s "00011", 9%Z)] in
  exists xs ys : list Z,
    energy_bars counts G_demo = Ok (xs, ys) /\
    length xs = length ys /\
    NoDup xs /\
    length xs <= S (length (edges G_demo)) /\
    sumZ ys = total_count counts /\
    bars_moment (combine xs ys) = weighted_cut counts G_demo.
Proof.
  apply (proj2 (energy_bars_behaviour G_demo
                  [(s "11100", 7%Z); (s "10000", 2%Z); (s "00011", 9%Z)]
                  eq_refl)).
  discriminate.
Defined.

(* ================================================================= *)
(** ** Failures of the best-solution cell *)

Lemma list_comp_scored_closed (G : Graph) (ks : list str) :
  list_comp (fun x => c <- maxcut_obj x G ;; Ok (c, x)) ks
  = if forallb (fun k => covers k G) ks
    then Ok (map (fun x => (cut_value x G, x)) ks)
    else Raise IndexError.
Proof.
  induction ks as [|k ks IH]; cbn [list_comp map forallb].
  - reflexivity.
  - rewrite maxcut_obj_closed. destruct (covers k G); cbn [bind andb]; [|reflexivity].
    rewrite IH. destruct (forallb _ ks); reflexivity.
Qed.

Lemma all_cover_forallb_keys (counts : dict Z) (G : Graph) :
  forallb (fun k => covers k G) (keys counts) = all_cover counts G.
Proof. unfold all_cover, keys. apply forallb_map_compose. Qed.

(** X12.  The best-solution cell fails with [ValueError] exactly on the
    empty table, and with [IndexError] exactly when some key, best or not,
    is too short for the graph; it fails in no other way. *)
Theorem best_selection_raises (G : Graph) (counts : dict Z) :
  (best_selection counts G = Raise ValueError <-> counts = []) /\
  (best_selection counts G = Raise IndexError <->
     exists k, In k (keys counts) /\ covers k G = false) /\
  (forall e, best_selection counts G = Raise e ->
     e = ValueError \/ e = IndexError).
Proof.
  unfold best_selection. rewrite list_comp_scored_closed, all_cover_forallb_keys.
  rewrite <- all_cover_false.
  destruct counts as [|[k0 v0] counts].
  - cbn. repeat split; try discriminate; try congruence.
    intros e He. injection He as <-. auto.
  - destruct (all_cover ((k0, v0) :: counts) G); cbn [bind keys map py_min];
      repeat split; try discriminate; try congruence.
    intros e He. injection He as <-. auto.
Qed.

Lemma best_selection_raises_witness :
  best_selection [(s "11100", 7%Z); (s "000", 1%Z)] G_demo = Raise IndexError.
Proof.
  apply (proj2 (proj1 (proj2 (best_selection_raises G_demo
                                [(s "11100", 7%Z); (s "000", 1%Z)])))).
  exists (s "000"). split; [right; left; reflexivity | reflexivity].
Defined.

(* ================================================================= *)
(** ** Colouring the nodes *)

Lemma node_colors_closed (x : str) (ns : list nat) :
  Forall (fun n => n < length x) ns ->
  list_comp (fun node =>
               c <- getitem x node ;;
               Ok (if Ascii.eqb c "0" then "r"%char else "b"%char)) ns
  = Ok (map (fun n => if Ascii.eqb (nth n x "0"%char) "0" then "r"%char else "b"%char) ns).
Proof.
  induction 1 as [|n ns Hn _ IH]; cbn [list_comp map].
  - reflexivity.
  - unfold getitem at 1. rewrite (nth_error_nth' x "0"%char Hn). cbn [bind].
    rewrite IH. reflexivity.
Qed.

Example node_colors_demo :
  node_colors (s "11100") G_demo = Ok (list_ascii_of_string "brrbb").
Proof. reflexivity. Qed.

Example node_colors_short :
  node_colors (s "111") G_demo = Raise IndexError.
Proof. reflexivity. Qed.

(** X13.  For a well-formed graph and a bitstring with one bit per node,
    the colouring cell yields one colour per node, in the order the graph
    enumerates its nodes, and two nodes get different colours exactly when
    their bits differ: an edge joins two colours exactly when it is cut. *)
Theorem node_colors_show_cut (G : Graph) (x : str) :
  wf_graph G = true ->
  length x = number_of_nodes G ->
  is_bitstring x = true ->
  exists colors : list ascii,
    node_colors x G = Ok colors /\
    length colors = number_of_nodes G /\
    forall k1 k2 n1 n2 c1 c2,
      nth_error (nodes G) k1 = Some n1 ->
      nth_error (nodes G) k2 = Some n2 ->
      nth_error colors k1 = Some c1 ->
      nth_error colors k2 = Some c2 ->
      (c1 <> c2 <-> differ x n1 n2 = true).
Proof.
  intros Hwf Hlen Hbits.
  set (paint := fun n => if Ascii.eqb (nth n x "0"%char) "0"
                         then "r"%char else "b"%char).
  exists (map paint (nodes G)).
  assert (Hns : Forall (fun n => n < length x) (nodes G)).
  { apply Forall_forall. intros n Hn. rewrite Hlen.
    exact (wf_graph_nodes G Hwf n Hn). }
  split; [|split].
  - unfold node_colors. rewrite (node_colors_closed x (nodes G) Hns). reflexivity.
  - rewrite length_map. reflexivity.
  - intros k1 k2 n1 n2 c1 c2 H1 H2 Hc1 Hc2.
    rewrite nth_error_map, H1 in Hc1. rewrite nth_error_map, H2 in Hc2.
    cbn [option_map] in Hc1, Hc2. injection Hc1 as <-. injection Hc2 as <-.
    rewrite Forall_forall in Hns.
    pose proof (Hns n1 (nth_error_In _ _ H1)) as Hn1.
    pose proof (Hns n2 (nth_error_In _ _ H2)) as Hn2.
    pose proof (nth_error_nth' x "0"%char Hn1) as Ha.
    pose proof (nth_error_nth' x "0"%char Hn2) as Hb.
    unfold differ, paint. rewrite Ha, Hb.
    pose proof (is_bitstring_nth x n1 _ Hbits Ha) as Hba.
    pose proof (is_bitstring_nth x n2 _ Hbits Hb) as Hbb.
    unfold is_bit in Hba, Hbb. rewrite orb_true_iff in Hba, Hbb.
    destruct Hba as [Hba|Hba], Hbb as [Hbb|Hbb];
      apply Ascii.eqb_eq in Hba, Hbb; rewrite Hba, Hbb; cbn;
      split; congruence.
Qed.

Lemma node_colors_show_cut_witness :
  exists colors : list ascii,
    node_colors (s "11100") G_demo = Ok colors /\
    length colors = number_of_nodes G_demo /\
    forall k1 k2 n1 n2 c1 c2,
      nth_error (nodes G_demo) k1 = Some n1 ->
      nth_error (nodes G_demo) k2 = Some n2 ->
      nth_error colors k1 = Some c1 ->
      nth_error colors k2 = Some c2 ->
      (c1 <> c2 <-> differ (s "11100") n1 n2 = true).
Proof.
  apply (node_colors_show_cut G_demo (s "11100")); reflexivity.
Defined.

(** Off the two-letter alphabet the colours can hide a cut edge:
    ['1'] and ['2'] are both painted ['b']. *)
Example node_colors_other_letters :
  node_colors (s "11122") G_demo = Ok (list_ascii_of_string "bbbbb") /\
  maxcut_obj (s "11122") G_demo = Ok (-6)%Z.
Proof. split; reflexivity. Qed.

(* ================================================================= *)
(** ** When the circuit builders succeed *)

Section BuilderFacts.
Context {F : Type} `{PyFloat F}.
Implicit Types (d : list (Instruction F)) (n m : nat) (beta gamma : list F).

Lemma cx_closed n m d (i j : nat) :
  cx i j (mkCircuit n m d)
  = if (i <? n) && (j <? n) && negb (i =? j)
    then Ok (mkCircuit n m (d ++ [Gate_cx i j]))
    else Raise CircuitError.
Proof.
  unfold cx, check_qubits. cbn [num_qubits forallb].
  rewrite andb_true_r.
  destruct ((i <? n) && (j <? n)); cbn [bind andb]; [|reflexivity].
  destruct (i =? j); reflexivity.
Qed.

Lemma append_zz_term_closed n m d (i j : nat) (gamma0 : F) :
  append_zz_term (mkCircuit n m d) i j gamma0
  = if (i <? n) && (j <? n) && negb (i =? j)
    then Ok (mkCircuit n m (d ++ zz_term i j gamma0))
    else Raise CircuitError.
Proof.
  destruct ((i <? n) && (j <? n) && negb (i =? j)) eqn:Hok.
  - apply andb_true_iff in Hok. destruct Hok as [Hok Hij].
    apply andb_true_iff in Hok. destruct Hok as [Hi Hj].
    apply Nat.ltb_lt in Hi, Hj. apply negb_true_iff, Nat.eqb_neq in Hij.
    apply append_zz_term_ok; assumption.
  - unfold append_zz_term. rewrite cx_closed, Hok. reflexivity.
Qed.

Lemma cost_loop_closed (N : nat) (gamma0 : F) (es : list (nat * nat)) d :
  for_each es (mkCircuit N N d) (fun qc e =>
    let '(i, j) := e in
    qc <- append_zz_term qc i j gamma0 ;;
    barrier_all qc)
  = if forallb (fun e => (fst e <? N) && (snd e <? N) && negb (fst e =? snd e)) es
    then Ok (mkCircuit N N
               (d ++ flat_map (fun e => zz_term (fst e) (snd e) gamma0
                                        ++ [Barrier (range N)]) es))
    else Raise CircuitError.
Proof.
  revert d. induction es as [|[i j] es IH]; intros d;
    cbn [for_each forallb flat_map fst snd].
  - rewrite app_nil_r. reflexivity.
  - rewrite append_zz_term_closed.
    destruct ((i <? N) && (j <? N) && negb (i =? j)); cbn [bind andb]; [|reflexivity].
    unfold barrier_all. cbn [num_qubits]. rewrite barrier_range_ok. cbn [bind].
    rewrite IH. rewrite <- !app_assoc. reflexivity.
Qed.

Lemma rx_closed n m d (theta : F) (q : nat) :
  rx theta q (mkCircuit n m d)
  = if q <? n then Ok (mkCircuit n m (d ++ [Gate_rx theta q]))
    else Raise CircuitError.
Proof.
  unfold rx, check_qubits. cbn [num_qubits forallb]. rewrite andb_true_r.
  destruct (q <? n); reflexivity.
Qed.

Lemma mixer_loop_closed (N : nat) (beta0 : F) (ns : list nat) d :
  for_each ns (mkCircuit N N d) (fun qc q => append_x_term qc q beta0)
  = if forallb (fun q => q <? N) ns
    then Ok (mkCircuit N N (d ++ map (fun q => Gate_rx (twice beta0) q) ns))
    else Raise CircuitError.
Proof.
  revert d. induction ns as [|q ns IH]; intros d; cbn [for_each forallb map].
  - rewrite app_nil_r. reflexivity.
  - unfold append_x_term at 1. rewrite rx_closed.
    destruct (q <? N); cbn [bind andb]; [|reflexivity].
    rewrite IH. rewrite <- app_assoc. reflexivity.
Qed.

Lemma cost_layer_length (G : Graph) (gamma0 : F) :
  length (cost_layer G gamma0) = 4 * length (edges G).
Proof.
  unfold cost_layer. induction (edges G) as [|e es IH]; cbn [flat_map].
  - reflexivity.
  - rewrite length_app, IH. cbn [zz_term app length]. lia.
Qed.

(** X14.  [get_cost_operator_circuit] succeeds exactly when every edge
    joins two distinct lines of the [N]-line register, and raises
    [CircuitError] otherwise (an endpoint that is no line, or a self-loop).
    On success the circuit has [N] lines and [N] classical bits and holds
    four instructions per edge, in edge order: the three of the coupling
    term and a separator across all lines. *)
Theorem get_cost_operator_circuit_total (G : Graph) (gamma0 : F) :
  get_cost_operator_circuit G gamma0
  = (if edges_ok G
     then Ok (mkCircuit (number_of_nodes G) (number_of_nodes G)
                (flat_map (fun e =>
                             [Gate_cx (fst e) (snd e);
                              Gate_rz (twice gamma0) (snd e);
                              Gate_cx (fst e) (snd e);
                              Barrier (range (number_of_nodes G))]) (edges G)))
     else Raise CircuitError)
  /\ forall qc, get_cost_operator_circuit G gamma0 = Ok qc ->
       num_qubits qc = number_of_nodes G /\
       num_clbits qc = number_of_nodes G /\
       length (data qc) = 4 * length (edges G).
Proof.
  assert (Hclosed : get_cost_operator_circuit G gamma0
            = if edges_ok G
              then Ok (mkCircuit (number_of_nodes G) (number_of_nodes G)
                         (cost_layer G gamma0))
              else Raise CircuitError).
  { unfold get_cost_operator_circuit, new_circuit, edges_ok, cost_layer. cbv zeta.
    rewrite cost_loop_closed. destruct (forallb _ (edges G)); reflexivity. }
  split; [exact Hclosed|].
  intros qc. rewrite Hclosed. destruct (edges_ok G); [|discriminate].
  intros Hqc. injection Hqc as <-. cbn [num_qubits num_clbits data].
  repeat split. apply cost_layer_length.
Qed.

Lemma distinct_NoDup (l : list nat) : distinct l = true -> NoDup l.
Proof.
  induction l as [|n l IH]; cbn [distinct]; intros Hd.
  - constructor.
  - apply andb_true_iff in Hd. destruct Hd as [Hn Hd].
    constructor; [|exact (IH Hd)].
    intros Hin. apply existsb_eqb_In in Hin. rewrite Hin in Hn. discriminate.
Qed.

(** In a well-formed graph every line is a node, once. *)
Lemma wf_graph_every_line (G : Graph) (q : nat) :
  wf_graph G = true -> q < number_of_nodes G ->
  NoDup (nodes G) /\ In q (nodes G).
Proof.
  intros Hwf Hq. pose proof (wf_graph_nodes G Hwf) as Hn.
  assert (Hnd : NoDup (nodes G)).
  { unfold wf_graph in Hwf. rewrite !andb_true_iff in Hwf.
    apply distinct_NoDup. tauto. }
  split; [exact Hnd|].
  apply (NoDup_length_incl Hnd (l' := seq 0 (number_of_nodes G))).
  - rewrite length_seq. unfold number_of_nodes. lia.
  - intros n Hin. apply in_seq. specialize (Hn n Hin). lia.
  - apply in_seq. lia.
Qed.

Lemma count_rx_on (theta : F) (q : nat) (ns : list nat) :
  count_instr (is_rx_on q) (map (fun n => Gate_rx theta n) ns)
  = count_occ Nat.eq_dec ns q.
Proof.
  unfold count_instr. induction ns as [|n ns IH]; cbn [map filter count_occ is_rx_on].
  - reflexivity.
  - destruct (Nat.eq_dec n q) as [->|Hne].
    + rewrite Nat.eqb_refl. cbn [length]. rewrite IH. reflexivity.
    + rewrite (proj2 (Nat.eqb_neq n q) Hne). exact IH.
Qed.

(** X15.  On a well-formed graph [get_mixer_operator_circuit] succeeds
    with exactly [N] instructions, each an X-rotation by [2*beta], and
    every line of the register receives exactly one of them. *)
Theorem get_mixer_operator_circuit_once_per_line (G : Graph) (beta0 : F) :
  wf_graph G = true ->
  exists qc,
    get_mixer_operator_circuit G beta0 = Ok qc /\
    num_qubits qc = number_of_nodes G /\
    length (data qc) = number_of_nodes G /\
    Forall (fun ins => exists q, ins = Gate_rx (twice beta0) q) (data qc) /\
    forall q, q < number_of_nodes G ->
              count_instr (is_rx_on q) (data qc) = 1.
Proof.
  intros Hwf. eexists. split; [apply (get_mixer_operator_circuit_ok G beta0 Hwf)|].
  cbn [num_qubits data]. unfold mixer_layer. repeat split.
  - apply length_map.
  - apply Forall_forall. intros ins Hin. apply in_map_iff in Hin.
    destruct Hin as [q [<- _]]. exists q. reflexivity.
  - intros q Hq. rewrite count_rx_on.
    destruct (wf_graph_every_line G q Hwf Hq) as [Hnd Hin].
    apply NoDup_count_occ'; assumption.
Qed.

End BuilderFacts.

Lemma get_cost_operator_circuit_total_witness :
  get_cost_operator_circuit (mkGraph [0; 1] [(0, 1); (1, 1)]) (1 # 2)%Q
  = Raise CircuitError.
Proof.
  exact (proj1 (get_cost_operator_circuit_total
                  (mkGraph [0; 1] [(0, 1); (1, 1)]) (1 # 2)%Q)).
Defined.

Lemma get_mixer_operator_circuit_once_per_line_witness :
  exists qc,
    get_mixer_operator_circuit G_demo (1 # 3)%Q = Ok qc /\
    num_qubits qc = 5 /\
    length (data qc) = 5 /\
    Forall (fun ins => exists q, ins = Gate_rx (twice (1 # 3)%Q) q) (data qc) /\
    forall q, q < 5 -> count_instr (is_rx_on q) (data qc) = 1.
Proof.
  apply (get_mixer_operator_circuit_once_per_line G_demo (1 # 3)%Q). reflexivity.
Defined.

(* ================================================================= *)
(** ** Every outcome of the assembler *)

Section AssemblerFacts.
Context {F : Type} `{PyFloat F}.
Implicit Types (d : list (Instruction F)) (beta gamma : list F).

Lemma get_cost_operator_circuit_closed (G : Graph) (gamma0 : F) :
  get_cost_operator_circuit G gamma0
  = if edges_ok G
    then Ok (mkCircuit (number_of_nodes G) (number_of_nodes G) (cost_layer G gamma0))
    else Raise CircuitError.
Proof.
  unfold get_cost_operator_circuit, new_circuit, edges_ok, cost_layer. cbv zeta.
  rewrite cost_loop_closed. destruct (forallb _ (edges G)); reflexivity.
Qed.

Lemma get_mixer_operator_circuit_closed (G : Graph) (beta0 : F) :
  get_mixer_operator_circuit G beta0
  = if nodes_ok G
    then Ok (mkCircuit (number_of_nodes G) (number_of_nodes G) (mixer_layer G beta0))
    else Raise CircuitError.
Proof.
  unfold get_mixer_operator_circuit, new_circuit, nodes_ok, mixer_layer. cbv zeta.
  rewrite mixer_loop_closed. destruct (forallb _ (nodes G)); reflexivity.
Qed.

(** The layer loop on any graph: with no layer left it is done; otherwise
    the first layer already decides between success and [CircuitError]. *)
Lemma qaoa_loop_closed (G : Graph) beta gamma :
  length beta = length gamma ->
  forall (n k : nat) d,
    k + n = length beta ->
    for_each (seq k n)
             (mkCircuit (number_of_nodes G) (number_of_nodes G) d)
             (qaoa_step G beta gamma)
    = if (n =? 0) || (edges_ok G && nodes_ok G)
      then Ok (mkCircuit (number_of_nodes G) (number_of_nodes G)
                 (d ++ flatten_layers
                         (alternating_layers G (skipn k beta) (skipn k gamma))))
      else Raise CircuitError.
Proof.
  intros Hlen. induction n as [|n IH]; intros k d Hk.
  - cbn [seq for_each Nat.eqb orb]. rewrite (skipn_all2 beta) by lia.
    cbn. rewrite app_nil_r. reflexivity.
  - cbn [seq for_each Nat.eqb orb]. unfold qaoa_step at 1.
    destruct (getitem_Ok gamma k ltac:(lia)) as [g [Hg Hgg]].
    destruct (getitem_Ok beta k ltac:(lia)) as [b [Hb Hgb]].
    rewrite Hgg. cbn [bind]. rewrite get_cost_operator_circuit_closed.
    destruct (edges_ok G); cbn [bind andb]; [|reflexivity].
    rewrite compose_ok. cbn [bind]. rewrite Hgb. cbn [bind].
    rewrite get_mixer_operator_circuit_closed.
    destruct (nodes_ok G); cbn [bind]; [|reflexivity].
    rewrite compose_ok. cbn [bind].
    rewrite (IH (S k)) by lia. cbn [andb]. rewrite orb_true_r.
    rewrite (skipn_nth_error beta k b Hb), (skipn_nth_error gamma k g Hg).
    unfold alternating_layers, flatten_layers.
    cbn [combine map flat_map fst snd].
    rewrite <- !app_assoc. reflexivity.
Qed.

(** [get_qaoa_circuit] past its assertion. *)
Lemma get_qaoa_circuit_same_length (G : Graph) beta gamma :
  length beta = length gamma ->
  get_qaoa_circuit G beta gamma
  = if number_of_nodes G =? 0 then Raise CircuitError
    else if (length beta =? 0) || (edges_ok G && nodes_ok G)
         then Ok (mkCircuit (number_of_nodes G) (number_of_nodes G)
                    (qaoa_program G beta gamma))
         else Raise CircuitError.
Proof.
  intros Hlen. unfold get_qaoa_circuit.
  rewrite (proj2 (Nat.eqb_eq _ _) Hlen). cbn [assert bind].
  cbv zeta. unfold new_circuit.
  destruct (Nat.eqb_spec (number_of_nodes G) 0) as [H0|H0].
  - rewrite H0. reflexivity.
  - rewrite h_range_ok by lia. cbn [bind app].
    unfold range at 2.
    rewrite (qaoa_loop_closed G beta gamma Hlen (length beta) 0) by lia.
    destruct ((length beta =? 0) || (edges_ok G && nodes_ok G)); [|reflexivity].
    cbn [bind skipn]. rewrite barrier_range_ok. cbn [bind].
    rewrite measure_range_ok.
    unfold qaoa_program, hadamard_layer, measurement. cbv zeta.
    rewrite <- !app_assoc. reflexivity.
Qed.

Lemma get_qaoa_circuit_assert (G : Graph) beta gamma :
  length beta <> length gamma ->
  get_qaoa_circuit G beta gamma = Raise AssertionError.
Proof.
  intros Hne. unfold get_qaoa_circuit.
  rewrite (proj2 (Nat.eqb_neq _ _) Hne). reflexivity.
Qed.

(** X16.  The outcome of [get_qaoa_circuit] on every input.  Vectors of
    different lengths: [AssertionError].  Equal lengths on a graph with no
    node: [CircuitError], from the Hadamard call on no line.  Equal
    lengths, at least one node and no layer ([p = 0]): success, whatever
    the edges are.  Equal lengths, at least one node and at least one
    layer: success when every edge joins two distinct lines of the
    register and every node is a line, [CircuitError] otherwise.  In
    particular indexing [gamma[i]] and [beta[i]] never raises. *)
Theorem get_qaoa_circuit_total (G : Graph) beta gamma :
  get_qaoa_circuit G beta gamma
  = if negb (length beta =? length gamma) then Raise AssertionError
    else if number_of_nodes G =? 0 then Raise CircuitError
    else if (length beta =? 0) || (edges_ok G && nodes_ok G)
         then Ok (mkCircuit (number_of_nodes G) (number_of_nodes G)
                    (qaoa_program G beta gamma))
         else Raise CircuitError.
Proof.
  destruct (Nat.eqb_spec (length beta) (length gamma)) as [Hlen|Hne]; cbn [negb].
  - apply get_qaoa_circuit_same_length. exact Hlen.
  - apply get_qaoa_circuit_assert. exact Hne.
Qed.

Lemma mixer_layer_length (G : Graph) (beta0 : F) :
  length (mixer_layer G beta0) = number_of_nodes G.
Proof. unfold mixer_layer. apply length_map. Qed.

Lemma flatten_layers_length (G : Graph) beta gamma :
  length (flatten_layers (alternating_layers G beta gamma))
  = length (combine beta gamma) * (4 * length (edges G) + number_of_nodes G).
Proof.
  unfold flatten_layers, alternating_layers.
  induction (combine beta gamma) as [|bg l IH]; cbn [map flat_map fst snd length].
  - reflexivity.
  - rewrite !length_app, IH, cost_layer_length, mixer_layer_length. lia.
Qed.

Lemma no_measure_in_layers (G : Graph) beta gamma :
  forallb (fun ins => negb (is_measure ins))
          (flatten_layers (alternating_layers G beta gamma)) = true.
Proof.
  unfold flatten_layers, alternating_layers.
  induction (combine beta gamma) as [|bg l IH]; cbn [map flat_map fst snd].
  - reflexivity.
  - rewrite !forallb_app, IH, andb_true_r. apply andb_true_iff. split.
    + unfold cost_layer. induction (edges G) as [|e es IHe]; cbn [flat_map].
      * reflexivity.
      * rewrite forallb_app, IHe. reflexivity.
    + unfold mixer_layer. rewrite forallb_map_compose.
      apply forallb_forall. reflexivity.
Qed.

(** X17.  Whenever [get_qaoa_circuit] returns a circuit, on any graph, the
    circuit has [N] lines and [N] classical bits and
    [2N + 1 + p(4|E| + N)] instructions, and it ends with the [N]
    measurements, line [q] into classical bit [q] for [q = 0 .. N-1], with
    no measurement before them. *)
Theorem get_qaoa_circuit_size (G : Graph) beta gamma (qc : QuantumCircuit F) :
  get_qaoa_circuit G beta gamma = Ok qc ->
  num_qubits qc = number_of_nodes G /\
  num_clbits qc = number_of_nodes G /\
  length (data qc)
  = 2 * number_of_nodes G + 1
    + length beta * (4 * length (edges G) + number_of_nodes G) /\
  exists body,
    data qc = body ++ map (fun q => Measure q q) (range (number_of_nodes G)) /\
    forallb (fun ins => negb (is_measure ins)) body = true.
Proof.
  destruct (Nat.eq_dec (length beta) (length gamma)) as [Hlen|Hne];
    [|rewrite (get_qaoa_circuit_assert G beta gamma Hne); discriminate].
  rewrite (get_qaoa_circuit_same_length G beta gamma Hlen).
  destruct (number_of_nodes G =? 0); [discriminate|].
  destruct ((length beta =? 0) || (edges_ok G && nodes_ok G)); [|discriminate].
  intros Hqc. injection Hqc as <-. cbn [num_qubits num_clbits data].
  split; [reflexivity|]. split; [reflexivity|]. split.
  - unfold qaoa_program. cbv zeta.
    rewrite !length_app, flatten_layers_length, length_combine, <- Hlen.
    unfold hadamard_layer, measurement, range.
    rewrite !length_map, !length_seq. cbn [length]. lia.
  - unfold qaoa_program. cbv zeta.
    exists (hadamard_layer (number_of_nodes G)
            ++ flatten_layers (alternating_layers G beta gamma)
            ++ [Barrier (range (number_of_nodes G))]).
    split.
    + rewrite <- !app_assoc. reflexivity.
    + rewrite !forallb_app, no_measure_in_layers. cbn [forallb is_measure negb andb].
      rewrite andb_true_r. unfold hadamard_layer. rewrite forallb_map_compose.
      apply forallb_forall. reflexivity.
Qed.

End AssemblerFacts.

Example get_qaoa_circuit_depth_zero :
  get_qaoa_circuit (F := Q) (mkGraph [0; 5] [(0, 5); (7, 7)]) [] []
  = Ok (mkCircuit 2 2 [Gate_h 0; Gate_h 1; Barrier [0; 1]; Measure 0 0; Measure 1 1]).
Proof. reflexivity. Qed.

Lemma get_qaoa_circuit_size_witness :
  exists qc : QuantumCircuit Q,
    get_qaoa_circuit G_demo [(1 # 3)%Q; (1 # 5)%Q] [(1 # 2)%Q; (1 # 7)%Q] = Ok qc /\
    length (data qc) = 2 * 5 + 1 + 2 * (4 * 6 + 5).
Proof.
  eexists. split; [reflexivity|].
  apply (get_qaoa_circuit_size G_demo [(1 # 3)%Q; (1 # 5)%Q] [(1 # 2)%Q; (1 # 7)%Q]).
  reflexivity.
Defined.

(* ================================================================= *)
(** ** The objective handed to the optimiser *)

Lemma slices_same_length {A : Type} (p : nat) (theta : list A) :
  length (firstn p theta) = length (skipn p theta)
  <-> length theta = 0 \/ length theta = 2 * p.
Proof. rewrite length_firstn, length_skipn. lia. Qed.

Section BlackBoxFacts.
Context {F : Type} `{PyFloat F}.
Variable backend : QuantumCircuit F -> result (dict Z).

Lemma wf_graph_lines_ok (G : Graph) :
  wf_graph G = true -> edges_ok G && nodes_ok G = true.
Proof.
  intros Hwf. apply andb_true_iff. split.
  - unfold edges_ok. apply forallb_forall. intros [i j] Hin.
    destruct (wf_graph_edges G Hwf i j Hin) as [Hi [Hj Hij]]. cbn [fst snd].
    rewrite (proj2 (Nat.ltb_lt _ _) Hi), (proj2 (Nat.ltb_lt _ _) Hj).
    rewrite (proj2 (Nat.eqb_neq _ _) Hij). reflexivity.
  - unfold nodes_ok. apply forallb_forall. intros q Hq.
    apply Nat.ltb_lt. exact (wf_graph_nodes G Hwf q Hq).
Qed.

(** The circuit the objective runs for a parameter vector. *)
Lemma black_box_circuit (G : Graph) (p : nat) (theta : list F) :
  wf_graph G = true ->
  0 < number_of_nodes G ->
  length theta = 0 \/ length theta = 2 * p ->
  get_qaoa_circuit G (firstn p theta) (skipn p theta)
  = Ok (mkCircuit (number_of_nodes G) (number_of_nodes G)
          (qaoa_program G (firstn p theta) (skipn p theta))).
Proof.
  intros Hwf HN Hlen. apply slices_same_length in Hlen.
  rewrite (get_qaoa_circuit_same_length G _ _ Hlen).
  rewrite (proj2 (Nat.eqb_neq _ _) (Nat.neq_sym _ _ (Nat.lt_neq _ _ HN))).
  rewrite (wf_graph_lines_ok G Hwf), orb_true_r. reflexivity.
Qed.

(** X18.  The objective closure checks the parameter vector only through
    the assembler's assertion on the two slices [theta[:p]] and
    [theta[p:]].  A vector whose length is neither 0 nor [2p] fails with
    [AssertionError] before the backend is called, on every graph.  A
    vector of length [2p] on a well-formed graph with at least one node
    runs the depth-[p] circuit.  The empty vector passes the assertion for
    every [p] and, on a graph with at least one node, runs the depth-0
    circuit.  On a graph with no node a vector that passes the assertion
    fails with [CircuitError] before the backend is called. *)
Theorem get_black_box_objective_parameter_count (G : Graph) (p : nat) (theta : list F) :
  (length theta <> 0 -> length theta <> 2 * p ->
     get_black_box_objective backend G p theta = Raise AssertionError)
  /\
  (length theta = 2 * p -> wf_graph G = true -> 0 < number_of_nodes G ->
     length (firstn p theta) = p /\ length (skipn p theta) = p /\
     get_black_box_objective backend G p theta
     = (counts <- backend (mkCircuit (number_of_nodes G) (number_of_nodes G)
                             (qaoa_program G (firstn p theta) (skipn p theta))) ;;
        compute_maxcut_energy (invert_counts counts) G))
  /\
  (0 < number_of_nodes G ->
     get_black_box_objective backend G p []
     = (counts <- backend (mkCircuit (number_of_nodes G) (number_of_nodes G)
                             (hadamard_layer (number_of_nodes G)
                              ++ [Barrier (range (number_of_nodes G))]
                              ++ measurement (number_of_nodes G))) ;;
        compute_maxcut_energy (invert_counts counts) G))
  /\
  (number_of_nodes G = 0 ->
   length theta = 0 \/ length theta = 2 * p ->
     get_black_box_objective backend G p theta = Raise CircuitError).
Proof.
  split; [|split; [|split]].
  - intros H0 H2p. unfold get_black_box_objective. cbv zeta.
    rewrite get_qaoa_circuit_assert; [reflexivity|].
    intros Heq. apply slices_same_length in Heq. lia.
  - intros H2p Hwf HN. split; [|split].
    + rewrite length_firstn. lia.
    + rewrite length_skipn. lia.
    + unfold get_black_box_objective. cbv zeta.
      rewrite (black_box_circuit G p theta Hwf HN (or_intror H2p)). reflexivity.
  - intros HN. unfold get_black_box_objective. cbv zeta.
    rewrite firstn_nil, skipn_nil.
    rewrite (get_qaoa_circuit_same_length G [] [] eq_refl).
    rewrite (proj2 (Nat.eqb_neq _ _) (Nat.neq_sym _ _ (Nat.lt_neq _ _ HN))).
    reflexivity.
  - intros H0 Hlen. apply slices_same_length in Hlen.
    unfold get_black_box_objective. cbv zeta.
    rewrite (get_qaoa_circuit_same_length G _ _ Hlen), H0. reflexivity.
Qed.

(** X19.  One evaluation of the objective on a well-formed graph with at
    least one node and a vector of length [2p]: an exception of the backend
    comes out unchanged; and when the backend answers a table of well-sized
    keys with no negative count and a positive total, the value is the
    weighted cut of the raw table taken on the graph with node [i] renamed
    [N - 1 - i], divided by the total. *)
Theorem get_black_box_objective_value (G : Graph) (p : nat) (theta : list F) :
  wf_graph G = true ->
  0 < number_of_nodes G ->
  length theta = 2 * p ->
  let qc := mkCircuit (number_of_nodes G) (number_of_nodes G)
              (qaoa_program G (firstn p theta) (skipn p theta)) in
  (forall e, backend qc = Raise e ->
     get_black_box_objective backend G p theta = Raise e)
  /\
  (forall counts,
     backend qc = Ok counts ->
     dict_ok counts = true ->
     keys_have_length (number_of_nodes G) counts = true ->
     Forall (fun v => (0 <= v)%Z) (values counts) ->
     (0 < total_count counts)%Z ->
     get_black_box_objective backend G p theta
     = Ok (int_truediv (weighted_cut counts (mirror (number_of_nodes G) G))
                       (total_count counts))).
Proof.
  intros Hwf HN H2p qc.
  assert (Hf : get_black_box_objective backend G p theta
               = (counts <- backend qc ;;
                  compute_maxcut_energy (invert_counts counts) G)).
  { unfold get_black_box_objective. cbv zeta.
    rewrite (black_box_circuit G p theta Hwf HN (or_intror H2p)). reflexivity. }
  split.
  - intros e He. rewrite Hf, He. reflexivity.
  - intros counts Hc Hd Hk _ Hpos. rewrite Hf, Hc. cbn [bind].
    rewrite (invert_counts_reverse_keys counts Hd).
    rewrite (energy_reverse_keys_mirror G counts (number_of_nodes G)
               (well_sized_keys_cover G counts Hwf Hk)).
    rewrite compute_maxcut_energy_closed.
    assert (Hcov : all_cover counts (mirror (number_of_nodes G) G) = true).
    { unfold all_cover. apply forallb_forall. intros [k v] Hin. cbn [fst].
      rewrite <- (keys_have_length_In _ counts k v Hk Hin).
      apply covers_mirror. apply wf_graph_covers; [exact Hwf|].
      exact (keys_have_length_In _ counts k v Hk Hin). }
    rewrite Hcov. unfold truediv.
    destruct (Z.eqb_spec (total_count counts) 0); [lia | reflexivity].
Qed.

End BlackBoxFacts.

Lemma get_black_box_objective_parameter_count_witness :
  get_black_box_objective (F := Q) (fun _ => Ok [(s "00111", 5%Z)]) G_demo 2
    [(1 # 2)%Q; (1 # 3)%Q; (1 # 5)%Q]
  = Raise AssertionError.
Proof.
  apply (proj1 (get_black_box_objective_parameter_count (F := Q)
                  (fun _ => Ok [(s "00111", 5%Z)]) G_demo 2
                  [(1 # 2)%Q; (1 # 3)%Q; (1 # 5)%Q])); cbn [length]; lia.
Defined.

Lemma get_black_box_objective_value_witness :
  let counts := [(s "00111", 5%Z); (s "00001", 3%Z)] in
  get_black_box_objective (F := Q) (fun _ => Ok counts) G_demo 1
    [(1 # 2)%Q; (1 # 3)%Q]
  = Ok (int_truediv (weighted_cut counts (mirror 5 G_demo)) (total_count counts)).
Proof.
  assert (HN : 0 < number_of_nodes G_demo) by (cbn; lia).
  apply (proj2 (get_black_box_objective_value (F := Q)
                  (fun _ => Ok [(s "00111", 5%Z); (s "00001", 3%Z)]) G_demo 1
                  [(1 # 2)%Q; (1 # 3)%Q] eq_refl HN eq_refl)
               [(s "00111", 5%Z); (s "00001", 3%Z)]);
    [reflexivity | reflexivity | reflexivity
    | unfold values; cbn [map snd];
      repeat (apply Forall_cons; [cbn beta; lia|]); apply Forall_nil
    | vm_compute; reflexivity].
Defined.

(* ================================================================= *)
(** ** From the final run to the reported solution *)

Lemma best_report_min (G : Graph) (counts : dict Z) :
  all_cover counts G = true ->
  counts <> [] ->
  exists best : str,
    best_report counts G = Ok (best, (- cut_value best G)%Z) /\
    In best (keys counts) /\
    forall k, In k (keys counts) -> (cut_value best G <= cut_value k G)%Z.
Proof.
  intros Hcov Hne. unfold best_report, best_selection.
  rewrite list_comp_scored_closed, all_cover_forallb_keys, Hcov. cbn [bind].
  destruct counts as [|[k0 v0] counts]; [congruence|].
  cbn [keys map fst py_min]. fold (keys counts).
  set (score := fun x : str => (cut_value x G, x)).
  change (cut_value k0 G, k0) with (score k0).
  destruct (py_min_scan fst (map score (keys counts)) (score k0))
    as [l1 [l2 [Hsplit [H1 H2]]]].
  cbv zeta in Hsplit, H1, H2.
  remember (fold_left _ (map score (keys counts)) (score k0)) as r eqn:Er in *.
  clear Er.
  change (score k0 :: map score (keys counts))
    with (map score (k0 :: keys counts)) in Hsplit.
  apply map_eq_app in Hsplit.
  destruct Hsplit as [before [rest [Hkeys [Hb Hrest]]]].
  destruct rest as [|best after]; [discriminate|].
  cbn [map] in Hrest. injection Hrest as Hr Hafter.
  exists best. rewrite <- Hr. cbn [bind score]. split; [reflexivity|]. split.
  - rewrite Hkeys. apply in_or_app. right. left. reflexivity.
  - intros k Hk. rewrite Hkeys in Hk. apply in_app_or in Hk.
    rewrite Forall_forall in H1, H2.
    destruct Hk as [Hk|[Hk|Hk]].
    + specialize (H1 (score k)). rewrite <- Hr in H1. cbn [fst score] in H1.
      apply Z.lt_le_incl. apply H1. rewrite <- Hb. apply in_map. exact Hk.
    + subst k. lia.
    + specialize (H2 (score k)). rewrite <- Hr in H2. cbn [fst score] in H2.
      apply H2. rewrite <- Hafter. apply in_map. exact Hk.
Qed.

Section SolutionFacts.
Context {F : Type} `{PyFloat F}.
Variable backend : QuantumCircuit F -> result (dict Z).

(** X20.  The final cells together, on a well-formed graph with at least
    one node and a vector of length [2p], when the backend answers a
    non-empty table of well-sized keys: the reported string, read backwards, is one of the
    keys the backend returned; the reported cut is the number of edges that
    string cuts; and no returned key, read backwards, cuts more edges. *)
Theorem qaoa_solution_is_best_measured (G : Graph) (p : nat) (theta : list F)
    (counts : dict Z) :
  wf_graph G = true ->
  0 < number_of_nodes G ->
  length theta = 2 * p ->
  backend (mkCircuit (number_of_nodes G) (number_of_nodes G)
             (qaoa_program G (firstn p theta) (skipn p theta))) = Ok counts ->
  dict_ok counts = true ->
  keys_have_length (number_of_nodes G) counts = true ->
  counts <> [] ->
  exists (best : str) (cut : Z),
    qaoa_solution backend G p theta = Ok (best, cut) /\
    In (reversed best) (keys counts) /\
    maxcut_obj best G = Ok (- cut)%Z /\
    cut = Z.of_nat (length (cut_edges best G)) /\
    forall k, In k (keys counts) ->
      exists c, maxcut_obj (reversed k) G = Ok c /\ (- c <= cut)%Z.
Proof.
  intros Hwf HN H2p Hrun Hd Hk Hne.
  assert (Hfinal : final_counts backend G p theta = Ok (reverse_keys counts)).
  { unfold final_counts.
    rewrite (black_box_circuit G p theta Hwf HN (or_intror H2p)). cbn [bind].
    rewrite Hrun. cbn [bind]. rewrite (invert_counts_reverse_keys counts Hd).
    reflexivity. }
  assert (Hk' : keys_have_length (number_of_nodes G) (reverse_keys counts) = true).
  { unfold keys_have_length in *. rewrite keys_reverse_keys, forallb_map_compose.
    rewrite <- Hk. apply forallb_pointwise. intros k.
    unfold reversed. rewrite length_rev. reflexivity. }
  pose proof (keys_cover G (reverse_keys counts) Hwf Hk') as Hcov.
  assert (Hne' : reverse_keys counts <> []).
  { destruct counts; [congruence | discriminate]. }
  destruct (best_report_min G (reverse_keys counts) Hcov Hne')
    as [best [Hrep [Hin Hmin]]].
  pose proof (all_cover_keys G _ Hcov) as Hall. rewrite Forall_forall in Hall.
  exists best, (- cut_value best G)%Z.
  rewrite keys_reverse_keys in Hin, Hmin, Hall.
  split; [|split; [|split; [|split]]].
  - unfold qaoa_solution. rewrite Hfinal. cbn [bind]. exact Hrep.
  - apply in_map_iff in Hin. destruct Hin as [k [<- Hkin]].
    rewrite reversed_involutive. exact Hkin.
  - rewrite maxcut_obj_closed, (Hall best Hin), Z.opp_involutive. reflexivity.
  - rewrite cut_value_cut_edges. lia.
  - intros k Hkin. exists (cut_value (reversed k) G).
    assert (Hrk : In (reversed k) (map reversed (keys counts))).
    { apply in_map. exact Hkin. }
    split.
    + rewrite maxcut_obj_closed, (Hall _ Hrk). reflexivity.
    + specialize (Hmin _ Hrk). lia.
Qed.

End SolutionFacts.

Lemma qaoa_solution_is_best_measured_witness :
  let counts := [(s "00101", 5%Z); (s "00111", 3%Z); (s "11000", 4%Z)] in
  exists (best : str) (cut : Z),
    qaoa_solution (F := Q) (fun _ => Ok counts) G_demo 1 [(1 # 2)%Q; (1 # 3)%Q]
      = Ok (best, cut) /\
    In (reversed best) (keys counts) /\
    maxcut_obj best G_demo = Ok (- cut)%Z /\
    cut = Z.of_nat (length (cut_edges best G_demo)) /\
    forall k, In k (keys counts) ->
      exists c, maxcut_obj (reversed k) G_demo = Ok c /\ (- c <= cut)%Z.
Proof.
  apply (qaoa_solution_is_best_measured (F := Q)
           (fun _ => Ok [(s "00101", 5%Z); (s "00111", 3%Z); (s "11000", 4%Z)])
           G_demo 1 [(1 # 2)%Q; (1 # 3)%Q]
           [(s "00101", 5%Z); (s "00111", 3%Z); (s "11000", 4%Z)]);
    [reflexivity | cbn; lia | reflexivity | reflexivity | reflexivity
    | reflexivity | discriminate].
Defined.

Example qaoa_solution_demo :
  qaoa_solution (F := Q)
    (fun _ => Ok [(s "00101", 5%Z); (s "00111", 3%Z); (s "11000", 4%Z)])
    G_demo 1 [(1 # 2)%Q; (1 # 3)%Q]
  = Ok (s "11100", 6%Z).
Proof. reflexivity. Qed.

(* ================================================================= *)
(** ** Parity (QNN notebook) *)

Lemma str_count_app (c : ascii) (x y : str) :
  str_count c (x ++ y) = (str_count c x + str_count c y)%Z.
Proof. induction x as [|a x IH]; cbn [app str_count]; lia. Qed.

Lemma ones_xH : ones (Npos 1) = 1%Z.
Proof. reflexivity. Qed.

Lemma ones_xO (p : positive) : ones (Npos p~0) = ones (Npos p).
Proof. cbn [ones pos_bits]. rewrite str_count_app. cbn. lia. Qed.

Lemma ones_xI (p : positive) : ones (Npos p~1) = (ones (Npos p) + 1)%Z.
Proof. cbn [ones pos_bits]. rewrite str_count_app. cbn. lia. Qed.

Lemma ones_nonneg (n : N) : (0 <= ones n)%Z.
Proof.
  destruct n as [|p]; [cbn; lia|].
  induction p as [p IH|p IH|]; [rewrite ones_xI | rewrite ones_xO | cbn]; lia.
Qed.

Lemma ones_double (n : N) : ones (Pos.Ndouble n) = ones n.
Proof. destruct n as [|p]; [reflexivity | apply ones_xO]. Qed.

Lemma ones_succ_double (n : N) : ones (Pos.Nsucc_double n) = (ones n + 1)%Z.
Proof. destruct n as [|p]; [reflexivity | apply ones_xI]. Qed.

Lemma ones_lxor (p q : positive) :
  exists k : Z,
    (ones (Npos p) + ones (Npos q) = ones (Pos.lxor p q) + 2 * k)%Z.
Proof.
  revert q. induction p as [p IH|p IH|]; intros [q|q|]; cbn [Pos.lxor];
    rewrite ?ones_xI, ?ones_xO, ?ones_xH, ?ones_double, ?ones_succ_double;
    try (destruct (IH q) as [k Hk]);
    try (exists (k + 1)%Z; lia); try (exists k; lia);
    try (exists 0%Z; lia); try (exists 1%Z; lia).
  exists 1%Z. reflexivity.
Qed.

Lemma parity_ones (x : Z) : parity x = (ones (Z.abs_N x) mod 2)%Z.
Proof.
  destruct x as [|p|p]; unfold parity; cbn [format_b Z.abs_N ones str_count].
  - reflexivity.
  - reflexivity.
  - cbn. reflexivity.
Qed.

Example parity_demo :
  map parity [0; 1; 2; 3; 4; 5; 6; 7; 255; -5]%Z = [0; 1; 1; 0; 1; 0; 0; 1; 0; 0]%Z.
Proof. reflexivity. Qed.

Example format_b_demo :
  format_b 6 = s "110" /\ format_b 0 = s "0" /\ format_b (-5) = s "-101".
Proof. repeat split. Qed.

(** X21.  [parity] returns 0 or 1, so it stays below [output_shape = 2];
    it ignores the sign of its argument; doubling leaves it unchanged;
    and doubling then adding one, for a non-negative argument, flips it. *)
Theorem parity_digits (x : Z) :
  (0 <= parity x <= 1)%Z /\
  parity (- x) = parity x /\
  parity (2 * x) = parity x /\
  ((0 <= x)%Z -> parity (2 * x + 1) = (1 - parity x)%Z).
Proof.
  split; [|split; [|split]].
  - unfold parity. pose proof (Z.mod_pos_bound (str_count "1" (format_b x)) 2). lia.
  - rewrite !parity_ones, Zabs2N.inj_opp. reflexivity.
  - rewrite !parity_ones. destruct x as [|p|p]; [reflexivity | |].
    + change (2 * Z.pos p)%Z with (Z.pos p~0). cbn [Z.abs_N].
      rewrite ones_xO. reflexivity.
    + change (2 * Z.neg p)%Z with (Z.neg p~0). cbn [Z.abs_N].
      rewrite ones_xO. reflexivity.
  - intros Hx. rewrite !parity_ones. destruct x as [|p|p]; [reflexivity| |lia].
    change (2 * Z.pos p + 1)%Z with (Z.pos p~1). cbn [Z.abs_N]. rewrite ones_xI.
    pose proof (ones_nonneg (Npos p)) as Hp.
    generalize dependent (ones (N.pos p)). intros a Ha.
    Z.div_mod_to_equations. lia.
Qed.

Lemma parity_digits_witness : parity (2 * 6 + 1) = (1 - parity 6)%Z.
Proof.
  apply (proj2 (proj2 (proj2 (parity_digits 6)))). lia.
Defined.

(** X22.  On non-negative integers [parity] turns bitwise exclusive-or
    into addition modulo 2: the parity of [x ^ y] is the parity of the sum
    of the two parities. *)
Theorem parity_lxor (x y : Z) :
  (0 <= x)%Z -> (0 <= y)%Z ->
  parity (Z.lxor x y) = ((parity x + parity y) mod 2)%Z.
Proof.
  intros Hx Hy. destruct x as [|p|p]; [| |lia].
  - rewrite Z.lxor_0_l. unfold parity at 2 3. cbn [format_b str_count].
    cbn. unfold parity. rewrite Z.mod_mod by lia. reflexivity.
  - destruct y as [|q|q]; [| |lia].
    + rewrite Z.lxor_0_r. unfold parity at 3. cbn. rewrite Z.add_0_r.
      unfold parity. rewrite Z.mod_mod by lia. reflexivity.
    + change (Z.lxor (Z.pos p) (Z.pos q)) with (Z.of_N (Pos.lxor p q)).
      rewrite !parity_ones, Zabs2N.id. cbn [Z.abs_N].
      rewrite <- Z.add_mod by lia.
      destruct (ones_lxor p q) as [k Hk]. rewrite Hk.
      rewrite (Z.mul_comm 2 k). symmetry. apply Z_mod_plus_full.
Qed.

Lemma parity_lxor_witness :
  parity (Z.lxor 6 5) = ((parity 6 + parity 5) mod 2)%Z.
Proof.
  apply (parity_lxor 6 5); lia.
Defined.
